(** * rdio-monitor: a shallow embedding of [rdio_scanner.py]

    The development follows the classes of the program:
    - [CallRecord] and the tolerant parser [parse_call_record]
      (class [RdioScannerClient]);
    - the [calls] table and its statements (class [DatabaseManager]);
    - the audio storage directory with [download_audio], [process_audio]
      and [cleanup_old_files] (class [AudioProcessor]);
    - [perform_health_check] (class [SystemMonitor]);
    - the ingestion cycle [poll_and_process_calls] (class
      [RdioScannerMonitor]).

    Everything the program obtains from outside (HTTP responses, the clock,
    the codec library, whether the database driver raises) is an explicit
    argument of the function that consumes it. *)

From Stdlib Require Import ZArith Strings.Ascii Strings.Byte.
From stdpp Require Import base option list gmap strings.

Open Scope string_scope.
Open Scope Z_scope.
Open Scope list_scope.

(** ** Python values

    The raw API payload is whatever [response.json()] produced, so the parser
    works on dynamically typed values.  A float is kept as its IEEE-754
    binary64 bit pattern; a dict as its items in lookup order. *)

#[warnings="-register-all"]
Inductive pyval : Type :=
  | PNone
  | PBool (b : bool)
  | PInt (n : Z)
  | PFloat (bits : Z)
  | PStr (s : string)
  | PList (items : list pyval)
  | PDict (entries : list (string * pyval)).

(** [+0.0] and [-0.0] are the two floats that compare equal to zero. *)
Definition float_is_zero (bits : Z) : bool :=
  (bits =? 0) || (bits =? 2 ^ 63).

(** Python truth value testing ([bool(v)]). *)
Definition truthy (v : pyval) : bool :=
  match v with
  | PNone => false
  | PBool b => b
  | PInt n => negb (n =? 0)
  | PFloat x => negb (float_is_zero x)
  | PStr s => negb (String.eqb s "")
  | PList l => match l with [] => false | _ => true end
  | PDict d => match d with [] => false | _ => true end
  end.

(** [a or b]: the first operand when it is truthy, else the second. *)
Definition py_or (a b : pyval) : pyval := if truthy a then a else b.

(** [d.get(key, default)] on the items of a dict. *)
Fixpoint dict_get (d : list (string * pyval)) (key : string) (default : pyval)
  : pyval :=
  match d with
  | [] => default
  | (k, v) :: d' => if String.eqb k key then v else dict_get d' key default
  end.

(** [isinstance(v, str)] and [isinstance(v, (int, float))] ([bool] is a
    subclass of [int]). *)
Definition is_str (v : pyval) : bool :=
  match v with PStr _ => true | _ => false end.
Definition is_number (v : pyval) : bool :=
  match v with PBool _ | PInt _ | PFloat _ => true | _ => false end.

(** Structural equality of values, used where a value serves as a key. *)
Fixpoint pyval_eqb (a b : pyval) : bool :=
  match a, b with
  | PNone, PNone => true
  | PBool x, PBool y => Bool.eqb x y
  | PInt x, PInt y => x =? y
  | PFloat x, PFloat y => x =? y
  | PStr x, PStr y => String.eqb x y
  | PList l1, PList l2 =>
      (fix go (l1 l2 : list pyval) : bool :=
         match l1, l2 with
         | [], [] => true
         | x :: l1', y :: l2' => pyval_eqb x y && go l1' l2'
         | _, _ => false
         end) l1 l2
  | PDict d1, PDict d2 =>
      (fix go (d1 d2 : list (string * pyval)) : bool :=
         match d1, d2 with
         | [], [] => true
         | (k1, x) :: d1', (k2, y) :: d2' =>
             String.eqb k1 k2 && pyval_eqb x y && go d1' d2'
         | _, _ => false
         end) d1 d2
  | _, _ => false
  end.

(** [s.replace('Z', '+00:00')]. *)
Fixpoint replace_Z (s : string) : string :=
  match s with
  | EmptyString => EmptyString
  | String c s' =>
      if Ascii.eqb c "Z"%char then "+00:00" +:+ replace_Z s'
      else String c (replace_Z s')
  end.

(** ** The Python runtime

    Built-ins and library calls whose results the program only passes on.
    [None] stands for a raised exception. *)

Class PyRuntime := {
  datetime : Type;
  (** [float(v)] as a bit pattern; raises on e.g. a non-numeric string. *)
  py_float : pyval → option Z;
  (** [str(v)]. *)
  py_str : pyval → string;
  (** [int(s)] on a header value. *)
  py_int : string → option Z;
  (** [datetime.fromtimestamp(v, tz=timezone.utc)]; raises out of range. *)
  fromtimestamp : pyval → option datetime;
  (** [datetime.fromisoformat(s)]; [None] is the [ValueError]. *)
  fromisoformat : string → option datetime;
  (** [t.replace(tzinfo=timezone.utc)] when [t] is naive, else [t]. *)
  with_utc : datetime → datetime;
}.

Section WithRuntime.
Context `{RT : PyRuntime}.

(** ** CallRecord *)

Record CallRecord := mkCallRecord {
  call_id : pyval;
  timestamp : datetime;
  frequency : Z;
  talkgroup : option string;
  source : option string;
  duration : Z;
  audio_url : pyval;
  audio_file_path : option string;
  system_name : pyval;
  department : pyval;
  call_type : pyval;
  units : list pyval;
  metadata : pyval;
  processed : bool;
  created_at : datetime;
}.

(** The dataclass constructor followed by [__post_init__]: [created_at] is
    taken from the clock, the timestamp is made timezone-aware. *)
Definition new_CallRecord (created : datetime)
    (cid : pyval) (ts : datetime) (freq : Z) (tg src : option string)
    (dur : Z) (url : pyval) (path : option string)
    (sys dept ctype : pyval) (us : list pyval) (meta : pyval) (proc : bool)
  : CallRecord :=
  mkCallRecord cid (with_utc ts) freq tg src dur url path sys dept ctype us
    meta proc created.

(** What the clock and the UUID generator return during one call of
    [parse_call_record]. *)
Record parse_env := {
  pe_uuid : string;
  pe_now : datetime;
  pe_created : datetime;
}.

(** [str(v)] of a value that is not [None]. *)
Definition str_unless_none (v : pyval) : option string :=
  match v with PNone => None | _ => Some (py_str v) end.

(** [float(d.get(key, 0)) if d.get(key) else 0.0]. *)
Definition float_field (d : list (string * pyval)) (key : string) : option Z :=
  if truthy (dict_get d key PNone) then py_float (dict_get d key (PInt 0))
  else Some 0.

Definition parse_timestamp (e : parse_env) (raw : pyval) : option datetime :=
  if is_number raw then fromtimestamp raw
  else match raw with
       | PStr s => Some (default (pe_now e) (fromisoformat (replace_Z s)))
       | _ => Some (pe_now e)
       end.

Definition parse_units (raw : pyval) : list pyval :=
  match raw with
  | PStr _ => [raw]
  | PList l => l
  | _ => []
  end.

(** [parse_call_record]: [None] is the [except Exception] branch.  A payload
    that is not a dict has no [get] and raises at the first access. *)
Definition parse_call_record (e : parse_env) (api_call : pyval)
  : option CallRecord :=
  match api_call with
  | PDict d =>
      let get k := dict_get d k PNone in
      let cid := py_or (get "id") (py_or (get "call_id") (PStr (pe_uuid e))) in
      let timestamp_raw :=
        py_or (get "timestamp") (py_or (get "time") (get "datetime")) in
      ts ← parse_timestamp e timestamp_raw;
      freq ← float_field d "frequency";
      dur ← float_field d "duration";
      let tg := str_unless_none (py_or (get "talkgroup") (get "tg")) in
      let src := str_unless_none (py_or (get "source") (get "src")) in
      let url :=
        py_or (get "audio_url")
          (py_or (get "audioUrl") (py_or (get "audio") (get "file"))) in
      let us := parse_units (dict_get d "units" (PList [])) in
      Some (new_CallRecord (pe_created e) cid ts freq tg src dur url None
              (py_or (get "system") (get "system_name"))
              (py_or (get "department") (get "agency"))
              (py_or (get "type") (get "call_type"))
              us api_call false)
  | _ => None
  end.

(** ** DatabaseManager: the [calls] table

    A table is the list of its rows in insertion order.  Columns are those of
    the [CREATE TABLE] statement; [created_at] and [updated_at] are filled by
    the engine ([DEFAULT NOW()] and the [BEFORE UPDATE] trigger), never by
    the program. *)

Record Row := mkRow {
  c_call_id : pyval;
  c_timestamp : datetime;
  c_frequency : Z;
  c_talkgroup : option string;
  c_source : option string;
  c_duration : Z;
  c_audio_url : pyval;
  c_audio_file_path : option string;
  c_system_name : pyval;
  c_department : pyval;
  c_call_type : pyval;
  c_units : list pyval;
  c_metadata : pyval;
  c_processed : bool;
  c_created_at : datetime;
  c_updated_at : datetime;
}.

(** The row is the one a statement on [call_id = c] addresses.  The model
    compares the bound Python values; the engine compares what it has stored
    of them in the [VARCHAR(255)] column.  The two comparisons agree on
    strings, the type that the column and the dataclass declare for a
    [call_id]; what is stated below about the rows of one [call_id] set
    against the records of another is stated for string keys. *)
Definition has_call_id (c : pyval) (row : Row) : bool :=
  pyval_eqb (c_call_id row) c.

(** The [VALUES (...)] tuple of the [INSERT]: the fourteen bound columns of
    the record; both engine timestamps default to [NOW()]. *)
Definition inserted_row (now : datetime) (r : CallRecord) : Row :=
  mkRow (call_id r) (timestamp r) (frequency r) (talkgroup r) (source r)
    (duration r) (audio_url r) (audio_file_path r) (system_name r)
    (department r) (call_type r) (units r) (metadata r) (processed r)
    now now.

(** [ON CONFLICT (call_id) DO UPDATE SET col = EXCLUDED.col, ...,
    updated_at = NOW()]: every listed column is overwritten, [processed]
    included; [created_at] is not listed and keeps its value. *)
Definition conflict_update (now : datetime) (r : CallRecord) (old : Row) : Row :=
  mkRow (c_call_id old) (timestamp r) (frequency r) (talkgroup r) (source r)
    (duration r) (audio_url r) (audio_file_path r) (system_name r)
    (department r) (call_type r) (units r) (metadata r) (processed r)
    (c_created_at old) now.

(** One row of an [INSERT ... ON CONFLICT (call_id) DO UPDATE]. *)
Definition upsert_row (now : datetime) (r : CallRecord) (t : list Row)
  : list Row :=
  if existsb (has_call_id (call_id r)) t
  then map (λ row, if has_call_id (call_id r) row
                   then conflict_update now r row else row) t
  else t ++ [inserted_row now r].

(** Outcome of one database round trip, as the driver reports it:
    [db_raises = true] is a [psycopg2.Error]: no connection, a bound value
    the driver cannot adapt, or a statement the engine rejects (such as one
    [INSERT ... ON CONFLICT DO UPDATE] that proposes the same [call_id]
    twice).  The transaction is then not committed and the table is as
    before.  [db_now] is the engine's [NOW()]. *)
Record db_env := {
  db_raises : bool;
  db_now : datetime;
}.

(** [insert_call_record]. *)
Definition insert_call_record (e : db_env) (call_record : CallRecord)
    (t : list Row) : list Row * bool :=
  if db_raises e then (t, false)
  else (upsert_row (db_now e) call_record t, true).

(** [insert_call_records_batch]: one transaction for the whole list. *)
Definition insert_call_records_batch (e : db_env)
    (call_records : list CallRecord) (t : list Row) : list Row * nat :=
  match call_records with
  | [] => (t, 0%nat)
  | _ =>
      if db_raises e then (t, 0%nat)
      else (fold_left (λ t' r, upsert_row (db_now e) r t') call_records t,
            length call_records)
  end.

(** [UPDATE calls SET processed = TRUE WHERE call_id = %s]; the trigger
    bumps [updated_at].  The result is [rowcount > 0]. *)
Definition set_processed (now : datetime) (row : Row) : Row :=
  mkRow (c_call_id row) (c_timestamp row) (c_frequency row) (c_talkgroup row)
    (c_source row) (c_duration row) (c_audio_url row) (c_audio_file_path row)
    (c_system_name row) (c_department row) (c_call_type row) (c_units row)
    (c_metadata row) true (c_created_at row) now.

Definition mark_call_processed (e : db_env) (cid : pyval) (t : list Row)
  : list Row * bool :=
  if db_raises e then (t, false)
  else (map (λ row, if has_call_id cid row
                    then set_processed (db_now e) row else row) t,
        existsb (has_call_id cid) t).

(** The rows a [SELECT ... WHERE call_id = c] returns, and the stored
    [processed] flag of a call. *)
Definition rows_of (c : pyval) (t : list Row) : list Row :=
  filter (λ row, has_call_id c row = true) t.

Definition stored_processed (c : pyval) (t : list Row) : option bool :=
  c_processed <$> head (rows_of c t).

(** The [UNIQUE] constraint on [calls.call_id]. *)
Definition unique_call_ids (t : list Row) : Prop :=
  NoDup (c_call_id <$> t).

(** The operations on the table that the properties of [processed] and of
    upserts range over. *)
Inductive db_op :=
  | OpInsert (e : db_env) (r : CallRecord)
  | OpBatch (e : db_env) (rs : list CallRecord)
  | OpMark (e : db_env) (cid : pyval).

Definition run_op (op : db_op) (t : list Row) : list Row :=
  match op with
  | OpInsert e r => (insert_call_record e r t).1
  | OpBatch e rs => (insert_call_records_batch e rs t).1
  | OpMark e cid => (mark_call_processed e cid t).1
  end.

Definition run_ops (ops : list db_op) (t : list Row) : list Row :=
  fold_left (λ t' op, run_op op t') ops t.

(** ** AudioProcessor: the storage directory

    The directory [storage_path] is a finite map from entry names to
    entries; a path is the name of an entry of that directory.  Modification
    times are naive local datetimes in microseconds, the values that
    [datetime.now()] and [datetime.fromtimestamp(st_mtime)] are compared
    as. *)

Inductive entry :=
  | File (mtime : Z) (data : list byte)
  | Dir.

Record AudioProcessor := {
  audio_format : string;
  max_file_size : Z;
  auto_gain_control : bool;
  normalize_audio : bool;
  retention_days : Z;
}.

(** [Path.exists()] and [Path.unlink()]. *)
Definition path_exists (p : string) (fs : gmap string entry) : bool :=
  bool_decide (is_Some (fs !! p)).

Definition unlink (p : string) (fs : gmap string entry) : gmap string entry :=
  delete p fs.

(** *** download_audio *)

(** What [response.iter_content] does at each step of the loop: it yields a
    chunk, or an exception leaves the loop ([requests] raising a
    [RequestException], or any other error such as a failed write). *)
Inductive stream_item :=
  | Chunk (data : list byte)
  | Raise (request_exception : bool).

(** [session.get] followed by [raise_for_status]. *)
Inductive http_result :=
  | RequestError
  | HttpResponse (content_length : option string) (body : list stream_item).

Record download_env := {
  dl_stamp : string;
  dl_mtime : Z;
  dl_http : http_result;
  dl_open_raises : bool;
}.

(** [f"{call_id}_{timestamp}.{self.audio_format}"]. *)
Definition download_filename (self : AudioProcessor) (cid : pyval)
    (stamp : string) : string :=
  py_str cid +:+ "_" +:+ stamp +:+ "." +:+ audio_format self.

(** [content_length and int(content_length) > self.max_file_size];
    [None] when [int] raises. *)
Definition declared_too_large (self : AudioProcessor)
    (content_length : option string) : option bool :=
  match content_length with
  | None => Some false
  | Some s =>
      if String.eqb s "" then Some false
      else n ← py_int s; Some (max_file_size self <? n)
  end.

Inductive write_result :=
  | WriteComplete (downloaded_bytes : Z)
  | WriteAborted
  | WriteRaised.

Definition append_data (mtime : Z) (p : string) (data : list byte)
    (fs : gmap string entry) : gmap string entry :=
  match fs !! p with
  | Some (File _ old) => <[p := File mtime (old ++ data)]> fs
  | _ => <[p := File mtime data]> fs
  end.

(** The body of [with open(file_path, 'wb') as f].  The file that
    [file_path.unlink()] removes is the one this call has just created and
    still holds open; the removal is taken to succeed. *)
Fixpoint write_chunks (self : AudioProcessor) (mtime : Z) (file_path : string)
    (body : list stream_item) (downloaded_bytes : Z) (fs : gmap string entry)
  : gmap string entry * write_result :=
  match body with
  | [] => (fs, WriteComplete downloaded_bytes)
  | Raise _ :: _ => (fs, WriteRaised)
  | Chunk [] :: rest =>
      write_chunks self mtime file_path rest downloaded_bytes fs
  | Chunk data :: rest =>
      let fs1 := append_data mtime file_path data fs in
      let downloaded := downloaded_bytes + Z.of_nat (length data) in
      if (0 <? max_file_size self) && (max_file_size self <? downloaded)
      then (unlink file_path fs1, WriteAborted)
      else write_chunks self mtime file_path rest downloaded fs1
  end.

Definition download_audio (self : AudioProcessor) (e : download_env)
    (url cid : pyval) (fs : gmap string entry)
  : gmap string entry * option string :=
  if negb (truthy url) then (fs, None)
  else
    let file_path := download_filename self cid (dl_stamp e) in
    match dl_http e with
    | RequestError => (fs, None)
    | HttpResponse content_length body =>
        match declared_too_large self content_length with
        | None | Some true => (fs, None)
        | Some false =>
            if dl_open_raises e then (fs, None)
            else
              let fs0 := <[file_path := File (dl_mtime e) []]> fs in
              match write_chunks self (dl_mtime e) file_path body 0 fs0 with
              | (fs', WriteComplete _) => (fs', Some file_path)
              | (fs', _) => (fs', None)
              end
        end
    end.

(** *** process_audio *)

Record AudioSegment := {
  seg_max : Z;
  seg_data : list byte;
}.

(** [audio.export(path, ...)]: whether it raised and what, if anything, it
    left at the output path. *)
Record export_result := {
  ex_raises : bool;
  ex_written : option (list byte);
}.

Record process_env := {
  pr_load : option AudioSegment;
  pr_compress : AudioSegment → option AudioSegment;
  pr_export : AudioSegment → string → export_result;
  pr_unlink_raises : bool;
  pr_mtime : Z;
}.

Definition is_dot (c : ascii) : bool := Ascii.eqb c "."%char.

Fixpoint rfind_dot (s : string) (i : nat) : option nat :=
  match s with
  | EmptyString => None
  | String c s' =>
      match rfind_dot s' (S i) with
      | Some j => Some j
      | None => if is_dot c then Some i else None
      end
  end.

(** [Path.suffix] of a final path component. *)
Definition path_suffix (name : string) : string :=
  match rfind_dot name 0 with
  | Some i =>
      if ((0 <? i) && (i <? String.length name - 1))%nat
      then String.substring i (String.length name - i) name
      else ""
  | None => ""
  end.

(** [str.lower] on ASCII letters. *)
Definition lower_ascii (c : ascii) : ascii :=
  let n := nat_of_ascii c in
  if ((65 <=? n) && (n <=? 90))%nat then ascii_of_nat (n + 32) else c.

Fixpoint lower (s : string) : string :=
  match s with
  | EmptyString => EmptyString
  | String c s' => String (lower_ascii c) (lower s')
  end.

(** [s.lstrip('.')]. *)
Fixpoint lstrip_dots (s : string) : string :=
  match s with
  | String c s' => if is_dot c then lstrip_dots s' else s
  | EmptyString => EmptyString
  end.

Fixpoint has_sep (s : string) : bool :=
  match s with
  | EmptyString => false
  | String c s' => Ascii.eqb c "/"%char || has_sep s'
  end.

(** [Path.with_suffix(suffix)]; [None] is its [ValueError]. *)
Definition with_suffix (name suffix : string) : option string :=
  if has_sep suffix then None
  else if String.eqb suffix "." then None
  else if String.eqb name "" then None
  else
    let old := path_suffix name in
    Some (String.substring 0 (String.length name - String.length old) name
            +:+ suffix).

(** [_normalize_audio]: a silent segment is returned as it is; for any
    other the gain expression calls [bit_length] on a float, which has no
    such attribute, so the call raises. *)
Definition _normalize_audio (audio : AudioSegment) : option AudioSegment :=
  if seg_max audio =? 0 then Some audio else None.

(** [_apply_agc]: one call into the codec library. *)
Definition _apply_agc (e : process_env) (audio : AudioSegment)
  : option AudioSegment := pr_compress e audio.

(** The effect of [audio.export(str(path), ...)] on the directory. *)
Definition export_to (e : process_env) (audio : AudioSegment) (path : string)
    (fs : gmap string entry) : gmap string entry * bool :=
  let r := pr_export e audio path in
  (match ex_written r with
   | Some data => <[path := File (pr_mtime e) data]> fs
   | None => fs
   end, ex_raises r).

(** The first half of the [try] block: [AudioSegment.from_file], then the
    two optional filters.  [None] when one of them raises. *)
Definition load_and_filter (self : AudioProcessor) (e : process_env)
  : option AudioSegment :=
  audio ← pr_load e;
  audio ← (if normalize_audio self then _normalize_audio audio
           else Some audio);
  if auto_gain_control self then _apply_agc e audio else Some audio.

(** Where the result is exported: next to the input under the configured
    suffix when the formats differ, else over the input itself. *)
Definition needs_conversion (self : AudioProcessor) (file_path : string)
  : bool :=
  negb (String.eqb (audio_format self)
          (lstrip_dots (lower (path_suffix file_path)))).

Definition process_audio (self : AudioProcessor) (e : process_env)
    (file_path : string) (fs : gmap string entry)
  : gmap string entry * option string :=
  if negb (path_exists file_path fs) then (fs, None)
  else
    match load_and_filter self e with
    | None => (fs, None)
    | Some audio =>
        if needs_conversion self file_path then
          match with_suffix file_path ("." +:+ audio_format self) with
          | None => (fs, None)
          | Some processed_path =>
              let '(fs1, raised) := export_to e audio processed_path fs in
              if raised then (fs1, None)
              else if negb (String.eqb processed_path file_path)
                      && path_exists processed_path fs1
              then
                if pr_unlink_raises e then (fs1, None)
                else (unlink file_path fs1, Some processed_path)
              else (fs1, Some processed_path)
          end
        else
          let '(fs1, raised) := export_to e audio file_path fs in
          if raised then (fs1, None) else (fs1, Some file_path)
    end.

(** *** cleanup_old_files *)

Record cleanup_env := {
  cl_now : Z;
  cl_stat_raises : string → bool;
  cl_unlink_raises : string → bool;
}.

(** [timedelta(days=d)] in microseconds. *)
Definition days (d : Z) : Z := d * 86400 * 1000000.

(** The [for file_path in self.storage_path.glob("*")] loop; an exception
    leaves it with the count reached so far. *)
Fixpoint cleanup_loop (e : cleanup_env) (cutoff_date : Z)
    (listing : list (string * entry)) (fs : gmap string entry)
    (deleted_count : Z) : gmap string entry * Z :=
  match listing with
  | [] => (fs, deleted_count)
  | (_, Dir) :: rest => cleanup_loop e cutoff_date rest fs deleted_count
  | (name, File file_mtime _) :: rest =>
      if cl_stat_raises e name then (fs, deleted_count)
      else if file_mtime <? cutoff_date then
        if cl_unlink_raises e name then (fs, deleted_count)
        else cleanup_loop e cutoff_date rest (unlink name fs)
               (deleted_count + 1)
      else cleanup_loop e cutoff_date rest fs deleted_count
  end.

(** [datetime.min] on the same scale, and [now - timedelta(days=d)], which
    raises [OverflowError] when the result would lie before it. *)
Definition datetime_min : Z := -62135596800 * 1000000.

Definition days_before (now d : Z) : option Z :=
  let t := now - days d in
  if t <? datetime_min then None else Some t.

(** [cleanup_old_files]; [None] is the [OverflowError] of the cutoff
    computation, which stands before the [try] block and leaves the
    function before any file is looked at. *)
Definition cleanup_old_files (self : AudioProcessor) (e : cleanup_env)
    (fs : gmap string entry) : option (gmap string entry * Z) :=
  if retention_days self <=? 0 then Some (fs, 0)
  else
    cutoff_date ← days_before (cl_now e) (retention_days self);
    Some (cleanup_loop e cutoff_date (map_to_list fs) fs 0).

(** ** RdioScannerClient.fetch_calls *)

(** The HTTP exchange of [fetch_calls]: it raises (request or JSON error),
    or [response.json()] returns a value. *)
Inductive fetch_result :=
  | FetchRaises
  | FetchJson (data : pyval).

Fixpoint chars_of (s : string) : list pyval :=
  match s with
  | EmptyString => []
  | String c s' => PStr (String c EmptyString) :: chars_of s'
  end.

(** The items of a value that has a length, in iteration order; [None] for
    a value on which [len] raises. *)
Definition sized_items (v : pyval) : option (list pyval) :=
  match v with
  | PList l => Some l
  | PStr s => Some (chars_of s)
  | PDict d => Some ((λ kv, PStr kv.1) <$> d)
  | _ => None
  end.

Fixpoint has_key (d : list (string * pyval)) (key : string) : bool :=
  match d with
  | [] => false
  | (k, _) :: d' => String.eqb k key || has_key d' key
  end.

Definition fetch_calls (r : fetch_result) : list pyval :=
  match r with
  | FetchRaises => []
  | FetchJson data =>
      let calls :=
        match data with
        | PList _ => data
        | PDict d =>
            if has_key d "calls" then dict_get d "calls" PNone
            else if has_key d "data" then dict_get d "data" PNone
            else PList []
        | _ => PList []
        end in
      default [] (sized_items calls)
  end.

(** ** SystemMonitor *)

Record SystemMonitor := {
  call_count : Z;
  error_count : Z;
  processing_times : list Z;
}.

(** [record_call_processed]: the list keeps its last 1000 entries. *)
Definition record_call_processed (processing_time : Z) (m : SystemMonitor)
  : SystemMonitor :=
  let times := processing_times m ++ [processing_time] in
  {| call_count := call_count m + 1;
     error_count := error_count m;
     processing_times :=
       if (1000 <? length times)%nat
       then drop (length times - 1000) times else times |}.

Definition record_error (m : SystemMonitor) : SystemMonitor :=
  {| call_count := call_count m;
     error_count := error_count m + 1;
     processing_times := processing_times m |}.

Inductive status := healthy | warning | unhealthy.

(** The [SELECT 1] probe: it raises, or [fetchone()] returns a result that
    is truthy or not. *)
Inductive db_probe :=
  | ProbeRaises
  | ProbeResult (result_truthy : bool).

(** What [check_disk_space] and [get_memory_usage] return: a dict with an
    ['alert'] entry, or, after an exception, one with only an ['error']. *)
Inductive resource_info :=
  | InfoError
  | Info (alert : bool).

(** [info.get('alert', False)]. *)
Definition get_alert (i : resource_info) : bool :=
  match i with InfoError => false | Info a => a end.

Record health_status := {
  overall_status : status;
  database_status : status;
  api_status : status;
  disk_space : resource_info;
  memory : resource_info;
}.

(** [perform_health_check], statement by statement: each assignment to
    [health_status['overall_status']] is one [let]. *)
Definition perform_health_check (db : db_probe) (api_healthy : bool)
    (disk_info memory_info : resource_info) : health_status :=
  let overall := healthy in
  let '(db_status, overall) :=
    match db with
    | ProbeResult result => (if result then healthy else unhealthy, overall)
    | ProbeRaises => (unhealthy, unhealthy)
    end in
  let api := if api_healthy then healthy else unhealthy in
  let overall := if negb api_healthy then unhealthy else overall in
  let overall := if get_alert disk_info then warning else overall in
  let overall := if get_alert memory_info then warning else overall in
  {| overall_status := overall;
     database_status := db_status;
     api_status := api;
     disk_space := disk_info;
     memory := memory_info |}.

(** ** RdioScannerMonitor: the ingestion cycle *)

Record RdioScannerMonitor := {
  audio_processor : AudioProcessor;
  calls : list Row;
  storage : gmap string entry;
  last_poll_time : option datetime;
  system_monitor : SystemMonitor;
}.

Definition with_store (self : RdioScannerMonitor) (t : list Row)
    (fs : gmap string entry) : RdioScannerMonitor :=
  {| audio_processor := audio_processor self;
     calls := t;
     storage := fs;
     last_poll_time := last_poll_time self;
     system_monitor := system_monitor self |}.

(** Everything the outside world contributes to the handling of one raw
    call. *)
Record call_env := {
  ce_parse : parse_env;
  ce_download : download_env;
  ce_process : process_env;
  ce_mark : db_env;
}.

(** [call_record.audio_file_path = ...; call_record.processed = True]. *)
Definition set_audio_processed (path : string) (r : CallRecord) : CallRecord :=
  mkCallRecord (call_id r) (timestamp r) (frequency r) (talkgroup r)
    (source r) (duration r) (audio_url r) (Some path) (system_name r)
    (department r) (call_type r) (units r) (metadata r) true (created_at r).

Definition _process_call_audio (e : call_env) (call_record : CallRecord)
    (self : RdioScannerMonitor) : RdioScannerMonitor * CallRecord :=
  let '(fs1, audio_path) :=
    download_audio (audio_processor self) (ce_download e)
      (audio_url call_record) (call_id call_record) (storage self) in
  match audio_path with
  | None => (with_store self (calls self) fs1, call_record)
  | Some audio_path =>
      let '(fs2, processed_path) :=
        process_audio (audio_processor self) (ce_process e) audio_path fs1 in
      match processed_path with
      | Some processed_path =>
          let t := (mark_call_processed (ce_mark e) (call_id call_record)
                      (calls self)).1 in
          (with_store self t fs2,
           set_audio_processed processed_path call_record)
      | None => (with_store self (calls self) fs2, call_record)
      end
  end.

(** The parsing loop; every raw call keeps its position in the fetched
    list, which selects its [call_env]. *)
Fixpoint parse_calls (env : nat → call_env) (i : nat) (calls_data : list pyval)
  : list (nat * CallRecord) :=
  match calls_data with
  | [] => []
  | call_data :: rest =>
      match parse_call_record (ce_parse (env i)) call_data with
      | Some call_record => (i, call_record) :: parse_calls env (S i) rest
      | None => parse_calls env (S i) rest
      end
  end.

(** The audio loop: [if call_record.audio_url: self._process_call_audio]. *)
Fixpoint process_calls (env : nat → call_env)
    (call_records : list (nat * CallRecord)) (self : RdioScannerMonitor)
  : RdioScannerMonitor * list CallRecord :=
  match call_records with
  | [] => (self, [])
  | (i, call_record) :: rest =>
      let '(self1, call_record1) :=
        if truthy (audio_url call_record)
        then _process_call_audio (env i) call_record self
        else (self, call_record) in
      let '(self2, rest') := process_calls env rest self1 in
      (self2, call_record1 :: rest')
  end.

(** What the outside world contributes to one cycle.  [po_insert] is the
    round trip of the batch statement; here its [db_raises] stands for any
    exception that the statement raises, and [po_insert_escapes] says
    whether that exception is something other than a [psycopg2.Error] (the
    driver's [ValueError] for a NUL character in a bound string, for one):
    [insert_call_records_batch] does not catch it, and it reaches the
    handler of [poll_and_process_calls]. *)
Record poll_env := {
  po_fetch : fetch_result;
  po_call : nat → call_env;
  po_insert : db_env;
  po_insert_escapes : bool;
  po_now : datetime;
  po_processing_time : Z;
}.

(** The handler [except Exception] of [poll_and_process_calls]: nothing of
    the cycle after the statement that raised has run, and the error is
    counted. *)
Definition cycle_aborted (self : RdioScannerMonitor) : RdioScannerMonitor :=
  {| audio_processor := audio_processor self;
     calls := calls self;
     storage := storage self;
     last_poll_time := last_poll_time self;
     system_monitor := record_error (system_monitor self) |}.

(** [poll_and_process_calls]; the second component is [call_records] as it
    stands when the cycle ends.  A batch statement that raises inside
    [insert_call_records_batch] is not committed; when the exception is not
    a [psycopg2.Error] it leaves the function and ends the cycle in the
    handler, before the audio loop. *)
Definition poll_and_process_calls (e : poll_env) (self : RdioScannerMonitor)
  : RdioScannerMonitor * list CallRecord :=
  let calls_data := fetch_calls (po_fetch e) in
  match calls_data with
  | [] => (self, [])
  | _ =>
      let parsed := parse_calls (po_call e) 0 calls_data in
      match parsed with
      | [] => (self, [])
      | _ =>
          if db_raises (po_insert e) && po_insert_escapes e
          then (cycle_aborted self, parsed.*2)
          else
            let t := (insert_call_records_batch (po_insert e) (parsed.*2)
                        (calls self)).1 in
            let '(self1, call_records) :=
              process_calls (po_call e) parsed
                (with_store self t (storage self)) in
            ({| audio_processor := audio_processor self1;
                calls := calls self1;
                storage := storage self1;
                last_poll_time := Some (po_now e);
                system_monitor :=
                  record_call_processed (po_processing_time e)
                    (system_monitor self1) |},
             call_records)
      end
  end.

(** ** Notions used to state the properties *)

(** The row carries the values of the record in all fourteen columns that
    the upsert binds. *)
Definition row_reflects (row : Row) (r : CallRecord) : Prop :=
  c_call_id row = call_id r ∧ c_timestamp row = timestamp r ∧
  c_frequency row = frequency r ∧ c_talkgroup row = talkgroup r ∧
  c_source row = source r ∧ c_duration row = duration r ∧
  c_audio_url row = audio_url r ∧
  c_audio_file_path row = audio_file_path r ∧
  c_system_name row = system_name r ∧ c_department row = department r ∧
  c_call_type row = call_type r ∧ c_units row = units r ∧
  c_metadata row = metadata r ∧ c_processed row = processed r.

(** Upserting one record, through [insert_call_record] or through
    [insert_call_records_batch] on a one-element list. *)
Definition upsert_one (batch : bool) (e : db_env) (r : CallRecord)
    (t : list Row) : list Row :=
  if batch then (insert_call_records_batch e [r] t).1
  else (insert_call_record e r t).1.









(** The chunks of a stretch of the response body: whether it consists of
    chunks only, their total length, and their concatenation. *)
Definition is_chunk (i : stream_item) : Prop :=
  match i with Chunk _ => True | Raise _ => False end.

Fixpoint chunk_data (body : list stream_item) : list byte :=
  match body with
  | [] => []
  | Chunk data :: rest => data ++ chunk_data rest
  | Raise _ :: rest => chunk_data rest
  end.

Definition chunk_bytes (body : list stream_item) : Z :=
  Z.of_nat (length (chunk_data body)).

(** The [Content-Length] header declares more than the maximum. *)
Definition advertised_over (self : AudioProcessor)
    (content_length : option string) : Prop :=
  ∃ s n, content_length = Some s ∧ s ≠ "" ∧ py_int s = Some n ∧
         max_file_size self < n.

(** The body delivers, before anything goes wrong, more bytes than the
    maximum. *)
Definition written_over (self : AudioProcessor) (body : list stream_item)
  : Prop :=
  ∃ pre post, body = pre ++ post ∧ Forall is_chunk pre ∧
              max_file_size self < chunk_bytes pre.

(** The path [process_audio] exports to; [None] when [with_suffix]
    raises. *)
Definition export_path (self : AudioProcessor) (file_path : string)
  : option string :=
  if needs_conversion self file_path
  then with_suffix file_path ("." +:+ audio_format self)
  else Some file_path.

(** One of the stages of [process_audio] raises: loading, normalization,
    gain control, or the export. *)
Inductive stage_failure (self : AudioProcessor) (e : process_env)
    (file_path : string) : Prop :=
  | load_fails :
      pr_load e = None → stage_failure self e file_path
  | normalize_fails audio :
      pr_load e = Some audio → normalize_audio self = true →
      _normalize_audio audio = None → stage_failure self e file_path
  | gain_control_fails audio audio' :
      pr_load e = Some audio →
      (if normalize_audio self then _normalize_audio audio else Some audio)
      = Some audio' →
      auto_gain_control self = true → _apply_agc e audio' = None →
      stage_failure self e file_path
  | export_fails audio out :
      load_and_filter self e = Some audio →
      export_path self file_path = Some out →
      ex_raises (pr_export e audio out) = true →
      stage_failure self e file_path.

(** No [stat] and no [unlink] raises during the pruning pass. *)
Definition no_cleanup_errors (e : cleanup_env) : Prop :=
  ∀ name, cl_stat_raises e name = false ∧ cl_unlink_raises e name = false.

(** For the record [r] as it stands after the cycle, the download and the
    transcoding both returned a path, and the record carries the latter. *)
Definition audio_succeeded (self : AudioProcessor) (e : call_env)
    (r : CallRecord) : Prop :=
  ∃ fs fs1 audio_path fs2 processed_path,
    download_audio self (ce_download e) (audio_url r) (call_id r) fs
    = (fs1, Some audio_path) ∧
    process_audio self (ce_process e) audio_path fs1
    = (fs2, Some processed_path) ∧
    audio_file_path r = Some processed_path.

(** [AudioProcessor.__init__]: the format is lower-cased and the maximum,
    configured in megabytes, is kept in bytes. *)
Definition new_AudioProcessor (format : string) (max_file_size_mb : Z)
    (agc normalize : bool) (retention : Z) : AudioProcessor :=
  {| audio_format := lower format;
     max_file_size := max_file_size_mb * 1024 * 1024;
     auto_gain_control := agc;
     normalize_audio := normalize;
     retention_days := retention |}.

(** ** AudioProcessor.get_storage_stats

    The [stats] dict, with the two loop variables [oldest_time] and
    [newest_time].  The entry ['total_size_mb'], a rounded float computed
    from [total_size_bytes] after the loop, is not kept. *)

Record storage_stats := {
  total_files : Z;
  total_size_bytes : Z;
  oldest_file : option string;
  newest_file : option string;
  formats : gmap string Z;
  oldest_time : option Z;
  newest_time : option Z;
}.

(** Whether the first [stat()] of an entry (for [st_size]) or the second
    (for [st_mtime]) raises. *)
Record stats_env := {
  st_size_raises : string → bool;
  st_mtime_raises : string → bool;
}.

Definition empty_stats : storage_stats :=
  {| total_files := 0; total_size_bytes := 0; oldest_file := None;
     newest_file := None; formats := ∅; oldest_time := None;
     newest_time := None |}.

(** [if file_ext in stats['formats']: ... += 1 else: ... = 1]. *)
Definition count_format (file_ext : string) (fm : gmap string Z)
  : gmap string Z :=
  match fm !! file_ext with
  | Some n => <[file_ext := n + 1]> fm
  | None => <[file_ext := 1]> fm
  end.

(** The loop of [get_storage_stats]; an exception leaves it with the dict
    as it stands. *)
Fixpoint storage_stats_loop (e : stats_env) (listing : list (string * entry))
    (stats : storage_stats) : storage_stats :=
  match listing with
  | [] => stats
  | (_, Dir) :: rest => storage_stats_loop e rest stats
  | (name, File file_mtime data) :: rest =>
      let files := total_files stats + 1 in
      if st_size_raises e name then
        {| total_files := files;
           total_size_bytes := total_size_bytes stats;
           oldest_file := oldest_file stats;
           newest_file := newest_file stats;
           formats := formats stats;
           oldest_time := oldest_time stats;
           newest_time := newest_time stats |}
      else
        let size := total_size_bytes stats + Z.of_nat (length data) in
        let fm := count_format (lstrip_dots (lower (path_suffix name)))
                    (formats stats) in
        if st_mtime_raises e name then
          {| total_files := files;
             total_size_bytes := size;
             oldest_file := oldest_file stats;
             newest_file := newest_file stats;
             formats := fm;
             oldest_time := oldest_time stats;
             newest_time := newest_time stats |}
        else
          let older :=
            match oldest_time stats with
            | None => true
            | Some t => file_mtime <? t
            end in
          let newer :=
            match newest_time stats with
            | None => true
            | Some t => t <? file_mtime
            end in
          storage_stats_loop e rest
            {| total_files := files;
               total_size_bytes := size;
               oldest_file := if older then Some name else oldest_file stats;
               newest_file := if newer then Some name else newest_file stats;
               formats := fm;
               oldest_time :=
                 if older then Some file_mtime else oldest_time stats;
               newest_time :=
                 if newer then Some file_mtime else newest_time stats |}
  end.

Definition get_storage_stats (e : stats_env) (fs : gmap string entry)
  : storage_stats :=
  storage_stats_loop e (map_to_list fs) empty_stats.

(** The sum of the per-format counts. *)
Definition format_total (fm : gmap string Z) : Z :=
  map_fold (λ _ n acc, n + acc) 0 fm.

(** The files of a listing: how many, and their sizes added up. *)
Fixpoint listed_files (listing : list (string * entry)) : Z :=
  match listing with
  | [] => 0
  | (_, File _ _) :: rest => 1 + listed_files rest
  | (_, Dir) :: rest => listed_files rest
  end.

Fixpoint listed_bytes (listing : list (string * entry)) : Z :=
  match listing with
  | [] => 0
  | (_, File _ data) :: rest => Z.of_nat (length data) + listed_bytes rest
  | (_, Dir) :: rest => listed_bytes rest
  end.

Definition no_stat_errors (e : stats_env) : Prop :=
  ∀ name, st_size_raises e name = false ∧ st_mtime_raises e name = false.

(** ** health_check.py: HealthChecker

    A result keeps its check name and its status; the counters are those of
    [add_result]. *)

Record HealthChecker := {
  checks_passed : Z;
  checks_failed : Z;
  checks_warning : Z;
  results : list (string * string);
}.

Definition new_HealthChecker : HealthChecker :=
  {| checks_passed := 0; checks_failed := 0; checks_warning := 0;
     results := [] |}.

Definition add_result (check_name status : string) (self : HealthChecker)
  : HealthChecker :=
  {| checks_passed :=
       if String.eqb status "pass" then checks_passed self + 1
       else checks_passed self;
     checks_failed :=
       if String.eqb status "pass" then checks_failed self
       else if String.eqb status "fail" then checks_failed self + 1
       else checks_failed self;
     checks_warning :=
       if String.eqb status "pass" then checks_warning self
       else if String.eqb status "fail" then checks_warning self
       else if String.eqb status "warning" then checks_warning self + 1
       else checks_warning self;
     results := results self ++ [(check_name, status)] |}.

(** One call [check()] of the loop in [run_all_checks], as seen from the
    loop: the results the check adds itself, and whether it then raises. *)
Record check_run := {
  chk_name : string;
  chk_added : list (string * string);
  chk_raises : bool;
}.

Definition run_check (c : check_run) (self : HealthChecker) : HealthChecker :=
  let self1 :=
    fold_left (λ s r, add_result r.1 r.2 s) (chk_added c) self in
  if chk_raises c then add_result (chk_name c) "fail" self1 else self1.

Record check_summary := {
  sum_total : Z;
  sum_passed : Z;
  sum_failed : Z;
  sum_warnings : Z;
  sum_overall_status : string;
  sum_results : list (string * string);
}.

Definition run_all_checks (checks : list check_run) (self : HealthChecker)
  : Z * check_summary :=
  let self' := fold_left (λ s c, run_check c s) checks self in
  let summary :=
    {| sum_total := Z.of_nat (length (results self'));
       sum_passed := checks_passed self';
       sum_failed := checks_failed self';
       sum_warnings := checks_warning self';
       sum_overall_status :=
         if checks_failed self' =? 0 then "healthy" else "unhealthy";
       sum_results := results self' |} in
  let exit_code :=
    if 0 <? checks_failed self' then 1
    else if 0 <? checks_warning self' then 2
    else 0 in
  (exit_code, summary).

(** What the loop knows about the oldest and the newest file among those it
    has seen. *)
Definition extremes_of (seen : list (string * entry)) (s : storage_stats)
  : Prop :=
  match oldest_time s with
  | None => oldest_file s = None ∧ listed_files seen = 0
  | Some t =>
      ∃ n d, oldest_file s = Some n ∧ (n, File t d) ∈ seen ∧
             ∀ n' t' d', (n', File t' d') ∈ seen → t ≤ t'
  end ∧
  match newest_time s with
  | None => newest_file s = None ∧ listed_files seen = 0
  | Some t =>
      ∃ n d, newest_file s = Some n ∧ (n, File t d) ∈ seen ∧
             ∀ n' t' d', (n', File t' d') ∈ seen → t' ≤ t
  end.

(** How many of the results carry the given status, and the agreement of
    the three counters with the list of results. *)
Fixpoint count_status (status : string) (rs : list (string * string)) : Z :=
  match rs with
  | [] => 0
  | r :: rest =>
      (if String.eqb r.2 status then 1 else 0) + count_status status rest
  end.

Definition counters_agree (self : HealthChecker) : Prop :=
  checks_passed self = count_status "pass" (results self) ∧
  checks_failed self = count_status "fail" (results self) ∧
  checks_warning self = count_status "warning" (results self).

(** The results one check leaves behind: its own, then the one that
    [run_all_checks] adds when the check raised. *)
Definition check_results (c : check_run) : list (string * string) :=
  chk_added c ++ (if chk_raises c then [(chk_name c, "fail")] else []).

End WithRuntime.

(** ** A runtime for the examples

    Exact on the values the examples below pass to it: strings of decimal
    digits, integers, and timestamps given as integers.  Datetimes are
    microseconds since the epoch. *)

Definition digit_of (c : ascii) : option Z :=
  let n := nat_of_ascii c in
  if ((48 <=? n) && (n <=? 57))%nat then Some (Z.of_nat n - 48) else None.

Fixpoint digits_value (s : string) (acc : Z) : option Z :=
  match s with
  | EmptyString => Some acc
  | String c s' => d ← digit_of c; digits_value s' (10 * acc + d)
  end.

Definition int_of_digits (s : string) : option Z :=
  match s with
  | EmptyString => None
  | _ => digits_value s 0
  end.

(** [float(n)] for an integer: the binary64 nearest to [n], ties to even;
    [None] is the [OverflowError]. *)
Definition float_of_int (n : Z) : option Z :=
  if n =? 0 then Some 0
  else
    let a := Z.abs n in
    let e := Z.log2 a in
    let m :=
      if e <=? 52 then Z.shiftl a (52 - e)
      else
        let s := e - 52 in
        let q := Z.shiftr a s in
        let r := Z.land a (Z.ones s) in
        let half := Z.shiftl 1 (s - 1) in
        if (half <? r) || ((r =? half) && Z.odd q) then q + 1 else q in
    let bits := Z.shiftl (e + 1023) 52 + (m - 2 ^ 52) in
    if 2047 * 2 ^ 52 <=? bits then None
    else Some (if n <? 0 then 2 ^ 63 + bits else bits).

(** [str(n)] for an integer: its decimal digits, least significant first
    into the accumulator; the fuel bounds the number of digits. *)
Fixpoint dec_digits (fuel : nat) (n : Z) (acc : string) : string :=
  match fuel with
  | O => acc
  | S fuel' =>
      let acc' := String (ascii_of_nat (48 + Z.to_nat (n mod 10))) acc in
      if n <? 10 then acc' else dec_digits fuel' (n / 10) acc'
  end.

Definition str_of_int (n : Z) : string :=
  let a := Z.abs n in
  let digits := dec_digits (S (Z.to_nat (Z.log2 a))) a "" in
  if n <? 0 then "-" +:+ digits else digits.

Definition example_runtime : PyRuntime := {|
  datetime := Z;
  py_float := λ v,
    match v with
    | PFloat bits => Some bits
    | PInt n => float_of_int n
    | PBool b => float_of_int (if b then 1 else 0)
    | PStr s => n ← int_of_digits s; float_of_int n
    | _ => None
    end;
  py_str := λ v,
    match v with
    | PStr s => s
    | PInt n => str_of_int n
    | PBool b => if b then "True" else "False"
    | _ => "None"
    end;
  py_int := int_of_digits;
  fromtimestamp := λ v,
    match v with
    | PInt n =>
        if (-62135596800 <=? n) && (n <=? 253402300799)
        then Some (n * 1000000) else None
    | PBool b => Some (if b then 1000000 else 0)
    | _ => None
    end;
  fromisoformat := λ _, None;
  with_utc := λ t, t;
|}.

(** ** Example data *)

Module Ex.

#[local] Existing Instance example_runtime.

Definition penv : parse_env :=
  {| pe_uuid := "0b6f2c1e-5a44-4e0b-9d3a-7c1f2e8a9b10";
     pe_now := (1700000100000000 : Z);
     pe_created := (1700000100000000 : Z) |}.

Definition db_ok (now : Z) : db_env :=
  {| db_raises := false; db_now := now |}.


(** The call of the specification's scenarios, and the same call without
    audio. *)
Definition raw_A1 : pyval :=
  PDict [("id", PStr "A1"); ("timestamp", PInt 1700000000);
         ("talkgroup", PStr "55"); ("audio_url", PStr "http://x/a.wav")].


Definition raw_B2 : pyval :=
  PDict [("id", PStr "B2"); ("timestamp", PInt 1700000050);
         ("talkgroup", PInt 56)].

(** A record whose frequency is not a number: [float] raises on it. *)
Definition raw_bad : pyval :=
  PDict [("id", PStr "C3"); ("frequency", PStr "n/a")].

Definition rec_of (raw : pyval) (proc : bool) : CallRecord :=
  match parse_call_record penv raw with
  | Some r =>
      mkCallRecord (call_id r) (timestamp r) (frequency r) (talkgroup r)
        (source r) (duration r) (audio_url r) (audio_file_path r)
        (system_name r) (department r) (call_type r) (units r) (metadata r)
        proc (created_at r)
  | None =>
      mkCallRecord PNone (0 : Z) 0 None None 0 PNone None PNone PNone PNone
        [] PNone proc (0 : Z)
  end.

(** A later delivery of call A1 with other field values. *)
Definition rec_A1_later : CallRecord :=
  mkCallRecord (PStr "A1") (1700000000000000 : Z) 0 (Some "57") (Some "9")
    4617315517961601024 (PStr "http://x/a2.wav") None (PStr "metro") PNone
    PNone [PStr "E1"] (PDict [("id", PStr "A1")]) false
    (1700000200000000 : Z).

Definition processor : AudioProcessor :=
  new_AudioProcessor "mp3" 1 false false 7.

(** The same configuration with the size limit set to 0. *)
Definition processor_no_limit : AudioProcessor :=
  new_AudioProcessor "mp3" 0 false false 7.

Definition b : byte := x41.

Definition dl (http : http_result) : download_env :=
  {| dl_stamp := "20231114_221500"; dl_mtime := 1700000100000000;
     dl_http := http; dl_open_raises := false |}.

Definition segment : AudioSegment := {| seg_max := 0; seg_data := [b; b] |}.

(** A codec run in which every call succeeds and the export writes its
    output. *)
Definition pr_ok : process_env :=
  {| pr_load := Some segment;
     pr_compress := λ a, Some a;
     pr_export := λ a _, {| ex_raises := false;
                            ex_written := Some (seg_data a) |};
     pr_unlink_raises := false;
     pr_mtime := 1700000101000000 |}.

(** A codec run in which the export raises after creating its output. *)
Definition pr_export_fails : process_env :=
  {| pr_load := Some segment;
     pr_compress := λ a, Some a;
     pr_export := λ _ _, {| ex_raises := true; ex_written := Some [] |};
     pr_unlink_raises := false;
     pr_mtime := 1700000101000000 |}.

Definition cenv : call_env :=
  {| ce_parse := penv;
     ce_download := dl (HttpResponse (Some "3") [Chunk [b; b; b]]);
     ce_process := pr_ok;
     ce_mark := db_ok 1700000102000000 |}.

Definition monitor0 : RdioScannerMonitor :=
  {| audio_processor := processor;
     calls := [];
     storage := ∅;
     last_poll_time := None;
     system_monitor :=
       {| call_count := 0; error_count := 0; processing_times := [] |} |}.

Definition poll (data : list pyval) : poll_env :=
  {| po_fetch := FetchJson (PList data);
     po_call := λ _, cenv;
     po_insert := db_ok 1700000100500000;
     po_insert_escapes := false;
     po_now := (1700000103000000 : Z);
     po_processing_time := 3 |}.



(** A storage directory on 2023-11-14: one file of ten days ago, one of an
    hour ago, and a sub-directory. *)
Definition old_fs : gmap string entry :=
  <["A0_20231104_221500.mp3" := File 1699136100000000 [b]]>
    (<["A1_20231114_211500.mp3" := File 1699996500000000 [b]]>
       (<["archive" := Dir]> ∅)).

Definition clean_env : cleanup_env :=
  {| cl_now := 1700000100000000;
     cl_stat_raises := λ _, false;
     cl_unlink_raises := λ _, false |}.

(** A directory listing in which every [stat] succeeds. *)
Definition stat_ok : stats_env :=
  {| st_size_raises := λ _, false; st_mtime_raises := λ _, false |}.

(** A run of the health checks in which the database check passes, the API
    check raises before it has added a result, and the file system check
    adds a warning. *)
Definition api_check : check_run :=
  {| chk_name := "check_api_responsiveness"; chk_added := [];
     chk_raises := true |}.

Definition checks : list check_run :=
  [ {| chk_name := "check_database_connectivity";
       chk_added := [("database_connectivity", "pass")];
       chk_raises := false |};
    api_check;
    {| chk_name := "check_filesystem_health";
       chk_added := [("filesystem_health", "warning")];
       chk_raises := false |} ].

End Ex.

(** * Properties *)

(** ** Equality of Python values *)

Section pyval_induction.
Variable P : pyval → Prop.
Hypothesis HNone : P PNone.
Hypothesis HBool : ∀ b, P (PBool b).
Hypothesis HInt : ∀ n, P (PInt n).
Hypothesis HFloat : ∀ x, P (PFloat x).
Hypothesis HStr : ∀ s, P (PStr s).
Hypothesis HList : ∀ l, Forall P l → P (PList l).
Hypothesis HDict : ∀ d, Forall (λ kv, P kv.2) d → P (PDict d).

Fixpoint pyval_nested_ind (v : pyval) : P v :=
  match v with
  | PNone => HNone
  | PBool b => HBool b
  | PInt n => HInt n
  | PFloat x => HFloat x
  | PStr s => HStr s
  | PList l =>
      HList l
        ((fix go (l : list pyval) : Forall P l :=
            match l with
            | [] => List.Forall_nil P
            | x :: l' =>
                List.Forall_cons P x l' (pyval_nested_ind x) (go l')
            end) l)
  | PDict d =>
      HDict d
        ((fix go (d : list (string * pyval)) : Forall (λ kv, P kv.2) d :=
            match d with
            | [] => List.Forall_nil _
            | (k, x) :: d' =>
                List.Forall_cons (λ kv, P kv.2) (k, x) d'
                  (pyval_nested_ind x) (go d')
            end) d)
  end.
End pyval_induction.

Lemma pyval_eqb_eq (a b : pyval) : pyval_eqb a b = true ↔ a = b.
Proof.
  revert b. induction a as [| | | | |l IH|d IH] using pyval_nested_ind;
    intros [] ; simpl; try (split; [discriminate|discriminate]);
    try (split; congruence).
  - rewrite Bool.eqb_true_iff. split; congruence.
  - rewrite Z.eqb_eq. split; congruence.
  - rewrite Z.eqb_eq. split; congruence.
  - rewrite String.eqb_eq. split; congruence.
  - rename items into l2. revert l2.
    induction IH as [|x l Hx _ IHl]; intros [|y l2]; simpl;
      try (split; congruence).
    rewrite andb_true_iff, Hx, IHl. split.
    + intros [-> ?]. congruence.
    + intros [= -> ->]. done.
  - rename entries into d2. revert d2.
    induction IH as [|[k x] d Hx _ IHd]; intros [|[k2 y] d2]; simpl;
      try (split; congruence).
    rewrite !andb_true_iff, String.eqb_eq. simpl in Hx. rewrite Hx, IHd.
    split.
    + intros [[-> ->] ?]. congruence.
    + intros [= -> -> ->]. done.
Qed.

Lemma pyval_eqb_refl (a : pyval) : pyval_eqb a a = true.
Proof. by apply pyval_eqb_eq. Qed.

Lemma pyval_eqb_neq (a b : pyval) : pyval_eqb a b = false ↔ a ≠ b.
Proof.
  rewrite <- pyval_eqb_eq. destruct (pyval_eqb a b); split; congruence.
Qed.

Section Properties.
Context `{RT : PyRuntime}.

(** ** The [calls] table *)

Lemma has_call_id_true (c : pyval) (row : Row) :
  has_call_id c row = true ↔ c_call_id row = c.
Proof. apply pyval_eqb_eq. Qed.

Lemma existsb_has_call_id (c : pyval) (t : list Row) :
  existsb (has_call_id c) t = true ↔ c ∈ c_call_id <$> t.
Proof.
  rewrite existsb_exists, list_elem_of_fmap. split.
  - intros (row & Hin & Hc). exists row. split.
    + symmetry. by apply has_call_id_true.
    + by apply list_elem_of_In.
  - intros (row & -> & Hin). exists row. split.
    + by apply list_elem_of_In.
    + by apply has_call_id_true.
Qed.

Lemma rows_of_nil_iff (c : pyval) (t : list Row) :
  rows_of c t = [] ↔ c ∉ c_call_id <$> t.
Proof.
  unfold rows_of. induction t as [|row t IH]; simpl.
  - split; [intros _; apply not_elem_of_nil | done].
  - rewrite filter_cons, not_elem_of_cons.
    destruct (decide (has_call_id c row = true)) as [Hc|Hc].
    + apply has_call_id_true in Hc. split; [done | intros [? _]; congruence].
    + rewrite IH. split; [|tauto]. intros Hn. split; [|done].
      intros ->. apply Hc. by apply has_call_id_true.
Qed.

Lemma rows_of_unique (c : pyval) (t : list Row) :
  unique_call_ids t → c ∈ c_call_id <$> t →
  ∃ row, rows_of c t = [row] ∧ row ∈ t ∧ c_call_id row = c.
Proof.
  unfold unique_call_ids, rows_of. induction t as [|row t IH]; simpl.
  - intros _ Hin. by apply elem_of_nil in Hin.
  - rewrite NoDup_cons, filter_cons. intros [Hnotin Hnd] Hin.
    destruct (decide (has_call_id c row = true)) as [Hc|Hc].
    + apply has_call_id_true in Hc. subst c. exists row.
      apply rows_of_nil_iff in Hnotin. unfold rows_of in Hnotin.
      rewrite Hnotin. split_and!; [done | apply list_elem_of_here | done].
    + apply elem_of_cons in Hin as [->|Hin].
      { exfalso. apply Hc. by apply has_call_id_true. }
      destruct (IH Hnd Hin) as (row' & Heq & Hin' & Hid).
      exists row'. split_and!; [done | by apply list_elem_of_further | done].
Qed.

Lemma upsert_row_ids (now : datetime) (r : CallRecord) (t : list Row) :
  c_call_id <$> upsert_row now r t =
  if existsb (has_call_id (call_id r)) t then c_call_id <$> t
  else (c_call_id <$> t) ++ [call_id r].
Proof.
  unfold upsert_row. destruct (existsb _ t).
  - rewrite <- list_fmap_compose. apply list_fmap_ext.
    intros i row _. simpl. by destruct (has_call_id _ row).
  - by rewrite fmap_app.
Qed.

Lemma upsert_row_length (now : datetime) (r : CallRecord) (t : list Row) :
  length (upsert_row now r t) =
  if existsb (has_call_id (call_id r)) t then length t else S (length t).
Proof.
  unfold upsert_row. destruct (existsb _ t).
  - by rewrite length_map.
  - rewrite length_app. simpl. lia.
Qed.

Lemma upsert_row_unique (now : datetime) (r : CallRecord) (t : list Row) :
  unique_call_ids t → unique_call_ids (upsert_row now r t).
Proof.
  unfold unique_call_ids. rewrite upsert_row_ids.
  destruct (existsb _ t) eqn:Hex; [done|]. intros Hnd.
  apply NoDup_app. split_and!; [done | | apply NoDup_singleton].
  intros c Hc ->%list_elem_of_singleton.
  apply existsb_has_call_id in Hc. congruence.
Qed.

Lemma upsert_row_has_id (now : datetime) (r : CallRecord) (t : list Row) :
  call_id r ∈ c_call_id <$> upsert_row now r t.
Proof.
  rewrite upsert_row_ids. destruct (existsb _ t) eqn:Hex.
  - by apply existsb_has_call_id.
  - apply elem_of_app. right. apply list_elem_of_here.
Qed.

Lemma upsert_row_keeps_ids (now : datetime) (r : CallRecord) (t : list Row)
    (c : pyval) :
  c ∈ c_call_id <$> t → c ∈ c_call_id <$> upsert_row now r t.
Proof.
  rewrite upsert_row_ids. destruct (existsb _ t); [done|].
  intros ?. apply elem_of_app. by left.
Qed.

Lemma has_call_id_conflict_update (now : datetime) (r : CallRecord)
    (row : Row) (c : pyval) :
  has_call_id c (conflict_update now r row) = has_call_id c row.
Proof. done. Qed.

Lemma rows_of_cons (c : pyval) (row : Row) (t : list Row) :
  rows_of c (row :: t) =
  if has_call_id c row then row :: rows_of c t else rows_of c t.
Proof.
  unfold rows_of. rewrite filter_cons.
  destruct (has_call_id c row); by case_decide.
Qed.

Lemma rows_of_app (c : pyval) (t1 t2 : list Row) :
  rows_of c (t1 ++ t2) = rows_of c t1 ++ rows_of c t2.
Proof. apply filter_app. Qed.

(** The rows of a call after one upserted row. *)
Lemma rows_of_upsert_row (now : datetime) (r : CallRecord) (t : list Row)
    (c : pyval) :
  rows_of c (upsert_row now r t) =
  if pyval_eqb (call_id r) c then
    if existsb (has_call_id c) t then conflict_update now r <$> rows_of c t
    else [inserted_row now r]
  else rows_of c t.
Proof.
  unfold upsert_row.
  destruct (pyval_eqb (call_id r) c) eqn:Hrc.
  - apply pyval_eqb_eq in Hrc. subst c.
    destruct (existsb _ t) eqn:Hex.
    + clear Hex. induction t as [|row t IH]; [done|].
      simpl. rewrite !rows_of_cons.
      destruct (has_call_id (call_id r) row) eqn:Hrow.
      * rewrite has_call_id_conflict_update, Hrow. simpl. by rewrite IH.
      * by rewrite Hrow.
    + rewrite rows_of_app.
      assert (Hnil : rows_of (call_id r) t = []).
      { apply rows_of_nil_iff. rewrite <- existsb_has_call_id. congruence. }
      rewrite Hnil. simpl. rewrite rows_of_cons.
      unfold has_call_id at 1. simpl. by rewrite pyval_eqb_refl.
  - assert (Hother : ∀ row, has_call_id (call_id r) row = true →
                            has_call_id c row = false).
    { intros row Hrow. apply has_call_id_true in Hrow.
      unfold has_call_id. apply pyval_eqb_neq. apply pyval_eqb_neq in Hrc.
      congruence. }
    destruct (existsb _ t).
    + induction t as [|row t IH]; [done|].
      simpl. rewrite !rows_of_cons.
      destruct (has_call_id (call_id r) row) eqn:Hrow.
      * rewrite has_call_id_conflict_update, (Hother _ Hrow). done.
      * by rewrite IH.
    + rewrite rows_of_app. simpl. rewrite rows_of_cons.
      unfold has_call_id at 1. simpl. rewrite Hrc. simpl.
      by rewrite app_nil_r.
Qed.

Lemma batch_fold_unique (now : datetime) (rs : list CallRecord)
    (t : list Row) :
  unique_call_ids t →
  unique_call_ids (fold_left (λ t' r, upsert_row now r t') rs t).
Proof.
  revert t. induction rs as [|r rs IH]; intros t Ht; simpl; [done|].
  apply IH. by apply upsert_row_unique.
Qed.

Lemma mark_call_processed_ids (e : db_env) (cid : pyval) (t : list Row) :
  c_call_id <$> (mark_call_processed e cid t).1 = c_call_id <$> t.
Proof.
  unfold mark_call_processed. destruct (db_raises e); [done|]. simpl.
  rewrite <- list_fmap_compose. apply list_fmap_ext.
  intros i row _. simpl. by destruct (has_call_id cid row).
Qed.

(** Every operation maintains the [UNIQUE] constraint. *)
Lemma run_op_unique (op : db_op) (t : list Row) :
  unique_call_ids t → unique_call_ids (run_op op t).
Proof.
  intros Ht. destruct op as [e r|e rs|e cid]; simpl.
  - unfold insert_call_record. destruct (db_raises e); [done|].
    by apply upsert_row_unique.
  - unfold insert_call_records_batch. destruct rs as [|r rs]; [done|].
    destruct (db_raises e); [done|]. by apply batch_fold_unique.
  - unfold unique_call_ids. by rewrite mark_call_processed_ids.
Qed.

Lemma run_ops_unique (ops : list db_op) (t : list Row) :
  unique_call_ids t → unique_call_ids (run_ops ops t).
Proof.
  unfold run_ops. revert t.
  induction ops as [|op ops IH]; intros t Ht; simpl; [done|].
  apply IH. by apply run_op_unique.
Qed.

Lemma upsert_one_ok (batch : bool) (e : db_env) (r : CallRecord)
    (t : list Row) :
  db_raises e = false → upsert_one batch e r t = upsert_row (db_now e) r t.
Proof.
  intros He. unfold upsert_one, insert_call_records_batch, insert_call_record.
  rewrite He. by destruct batch.
Qed.

(** C6. Upserting a record and then another record with the same [call_id]
    (each through [insert_call_record] or through
    [insert_call_records_batch]) leaves exactly one row for that [call_id];
    the row carries the later record's values in every upserted column and
    keeps the [created_at] it got at first; the table has as many rows as
    after the first upsert. *)
Theorem upsert_idempotent (b1 b2 : bool) (e1 e2 : db_env)
    (r1 r2 : CallRecord) (t : list Row) :
  unique_call_ids t →
  db_raises e1 = false → db_raises e2 = false →
  call_id r2 = call_id r1 →
  let t1 := upsert_one b1 e1 r1 t in
  let t2 := upsert_one b2 e2 r2 t1 in
  ∃ row1 row2,
    rows_of (call_id r1) t1 = [row1] ∧
    rows_of (call_id r1) t2 = [row2] ∧
    row_reflects row2 r2 ∧
    c_created_at row2 = c_created_at row1 ∧
    length t2 = length t1.
Proof.
  intros Ht He1 He2 Hid t1 t2. subst t1 t2.
  rewrite (upsert_one_ok b2 e2) by done.
  rewrite (upsert_one_ok b1 e1) by done.
  set (t1 := upsert_row (db_now e1) r1 t).
  assert (Hin : call_id r1 ∈ c_call_id <$> t1) by apply upsert_row_has_id.
  assert (Hu : unique_call_ids t1) by by apply upsert_row_unique.
  destruct (rows_of_unique _ _ Hu Hin) as (row1 & Hrows & _ & Hrow1).
  assert (Hex : existsb (has_call_id (call_id r1)) t1 = true)
    by by apply existsb_has_call_id.
  exists row1, (conflict_update (db_now e2) r2 row1). split_and!.
  - done.
  - rewrite rows_of_upsert_row, Hid, pyval_eqb_refl, Hex, Hrows. done.
  - unfold row_reflects. simpl. split_and!; try done. congruence.
  - done.
  - rewrite upsert_row_length, Hid, Hex. done.
Qed.

(** *** The stored [processed] flag *)

Lemma stored_processed_upsert_row (now : datetime) (r : CallRecord)
    (t : list Row) (c : pyval) :
  stored_processed c (upsert_row now r t) =
  if pyval_eqb (call_id r) c then Some (processed r)
  else stored_processed c t.
Proof.
  unfold stored_processed. rewrite rows_of_upsert_row.
  destruct (pyval_eqb (call_id r) c); [|done].
  destruct (existsb _ t) eqn:Hex; [|done].
  destruct (rows_of c t) as [|row rows] eqn:Hrows; [|done].
  apply rows_of_nil_iff in Hrows. apply existsb_has_call_id in Hex. done.
Qed.


Lemma rows_of_mark (e : db_env) (cid c : pyval) (t : list Row) :
  rows_of c (mark_call_processed e cid t).1 =
  if db_raises e then rows_of c t
  else if pyval_eqb cid c then set_processed (db_now e) <$> rows_of c t
  else rows_of c t.
Proof.
  unfold mark_call_processed. destruct (db_raises e); [done|]. simpl.
  induction t as [|row t IH]; simpl.
  { by destruct (pyval_eqb cid c). }
  rewrite !rows_of_cons.
  destruct (has_call_id cid row) eqn:Hrow.
  - change (has_call_id c (set_processed (db_now e) row))
      with (has_call_id c row).
    apply has_call_id_true in Hrow.
    destruct (pyval_eqb cid c) eqn:Hc.
    + destruct (has_call_id c row); rewrite IH; done.
    + assert (Hn : has_call_id c row = false).
      { apply pyval_eqb_neq. apply pyval_eqb_neq in Hc. congruence. }
      by rewrite Hn, IH.
  - destruct (pyval_eqb cid c) eqn:Hc.
    + apply pyval_eqb_eq in Hc. subst c. by rewrite Hrow, IH.
    + by rewrite IH.
Qed.



(** A successful upsert stores the [processed] field of its record. *)
Lemma upsert_overwrites_processed (batch : bool) (e : db_env)
    (r : CallRecord) (t : list Row) :
  db_raises e = false →
  stored_processed (call_id r) (upsert_one batch e r t) = Some (processed r).
Proof.
  intros He. rewrite upsert_one_ok by done.
  by rewrite stored_processed_upsert_row, pyval_eqb_refl.
Qed.


(** ** download_audio *)

Lemma append_data_lookup (mtime : Z) (p : string) (data : list byte)
    (fs : gmap string entry) (m0 : Z) (old : list byte) :
  fs !! p = Some (File m0 old) →
  append_data mtime p data fs !! p = Some (File mtime (old ++ data)).
Proof.
  intros Hp. unfold append_data. rewrite Hp. apply lookup_insert_eq.
Qed.

(** Once the running total passes a positive maximum the loop removes the
    file and stops. *)
Lemma write_chunks_over (self : AudioProcessor) (mtime : Z)
    (file_path : string) (pre post : list stream_item) (downloaded : Z)
    (fs : gmap string entry) :
  0 < max_file_size self →
  Forall is_chunk pre →
  downloaded ≤ max_file_size self →
  max_file_size self < downloaded + chunk_bytes pre →
  ∃ fs', write_chunks self mtime file_path (pre ++ post) downloaded fs
         = (fs', WriteAborted) ∧ fs' !! file_path = None.
Proof.
  intros Hmax. revert downloaded fs.
  induction pre as [|item pre IH]; intros downloaded fs Hpre Hle Hover.
  { unfold chunk_bytes in Hover. simpl in Hover. lia. }
  apply Forall_cons in Hpre as [Hitem Hpre].
  destruct item as [data|]; [|done].
  destruct data as [|b data].
  { simpl. apply IH; done. }
  cbn [app write_chunks].
  set (d := downloaded + Z.of_nat (length (b :: data))).
  destruct (Z.ltb_spec 0 (max_file_size self)) as [_|]; [|lia].
  destruct (Z.ltb_spec (max_file_size self) d) as [Hd|Hd]; simpl.
  - eexists. split; [done|]. apply lookup_delete_eq.
  - apply IH; [done|done|]. subst d.
    unfold chunk_bytes in *. cbn [chunk_data] in Hover.
    rewrite length_app in Hover. lia.
Qed.

(** C4, as amended. A download whose [Content-Length] header declares more
    than the maximum, or, when the maximum is positive, whose body delivers
    more bytes than the maximum, returns [None]; the directory is then as it
    was before the call or holds no file under the download's name. *)
Theorem download_size_guard (self : AudioProcessor) (e : download_env)
    (url cid : pyval) (fs : gmap string entry)
    (content_length : option string) (body : list stream_item) :
  dl_http e = HttpResponse content_length body →
  advertised_over self content_length ∨
    (0 < max_file_size self ∧ written_over self body) →
  ∃ fs',
    download_audio self e url cid fs = (fs', None) ∧
    (fs' = fs ∨ fs' !! download_filename self cid (dl_stamp e) = None).
Proof.
  intros Hhttp Hover. unfold download_audio. rewrite Hhttp.
  destruct (truthy url); simpl; [|eauto].
  destruct Hover as [(s & n & -> & Hs & Hint & Hn)|(Hmax & Hbody)].
  - unfold declared_too_large. apply String.eqb_neq in Hs. rewrite Hs, Hint.
    simpl. destruct (Z.ltb_spec (max_file_size self) n); [eauto|lia].
  - destruct (declared_too_large self content_length) as [[]|]; eauto.
    destruct (dl_open_raises e); eauto.
    destruct Hbody as (pre & post & -> & Hpre & Hbytes).
    edestruct (write_chunks_over self (dl_mtime e)
                 (download_filename self cid (dl_stamp e)) pre post 0)
      as (fs' & Hw & Hgone); [done|done|lia|lia|].
    rewrite Hw. eauto.
Qed.

(** While the running total stays within the limit (or the limit is off),
    the loop appends every chunk. *)
Lemma write_chunks_raise (self : AudioProcessor) (mtime : Z)
    (file_path : string) (pre post : list stream_item) (b : bool)
    (downloaded : Z) (fs : gmap string entry) (m0 : Z) (old : list byte) :
  Forall is_chunk pre →
  0 ≤ downloaded →
  ¬ (0 < max_file_size self ∧
     max_file_size self < downloaded + chunk_bytes pre) →
  fs !! file_path = Some (File m0 old) →
  ∃ fs' m',
    write_chunks self mtime file_path (pre ++ Raise b :: post) downloaded fs
    = (fs', WriteRaised) ∧
    fs' !! file_path = Some (File m' (old ++ chunk_data pre)).
Proof.
  revert downloaded fs m0 old.
  induction pre as [|item pre IH]; intros downloaded fs m0 old Hpre Hd Hlim Hfs.
  { simpl. exists fs, m0. by rewrite app_nil_r. }
  apply Forall_cons in Hpre as [Hitem Hpre].
  destruct item as [data|]; [|done].
  destruct data as [|x data].
  { simpl. eapply IH; done. }
  cbn [app write_chunks].
  set (d := downloaded + Z.of_nat (length (x :: data))).
  assert (Hsplit : chunk_bytes (Chunk (x :: data) :: pre)
                   = Z.of_nat (length (x :: data)) + chunk_bytes pre).
  { unfold chunk_bytes. cbn [chunk_data]. rewrite length_app. lia. }
  assert (Hpos : 0 ≤ chunk_bytes pre) by (unfold chunk_bytes; lia).
  destruct ((0 <? max_file_size self) && (max_file_size self <? d)) eqn:Hc.
  { exfalso. apply Hlim. apply andb_true_iff in Hc as [H1 H2].
    apply Z.ltb_lt in H1, H2. lia. }
  edestruct (IH d (append_data mtime file_path (x :: data) fs))
    as (fs' & m' & Hw & Hl); [done|lia| |by eapply append_data_lookup|].
  { intros [H1 H2]. apply Hlim. lia. }
  exists fs', m'. split; [done|]. rewrite Hl. cbn [chunk_data].
  by rewrite <- app_assoc.
Qed.

(** C10. When the request succeeds, the header passes the size check, the
    file is opened, and a request exception is raised after some chunks that
    stay within the limit, [download_audio] returns [None] and the file with
    the chunks written so far is still in the directory. *)
Theorem download_network_error_leaves_partial_file
    (self : AudioProcessor) (e : download_env) (url cid : pyval)
    (fs : gmap string entry) (content_length : option string)
    (pre post : list stream_item) :
  truthy url = true →
  dl_http e = HttpResponse content_length (pre ++ Raise true :: post) →
  declared_too_large self content_length = Some false →
  dl_open_raises e = false →
  Forall is_chunk pre →
  ¬ (0 < max_file_size self ∧ max_file_size self < chunk_bytes pre) →
  ∃ fs' mtime,
    download_audio self e url cid fs = (fs', None) ∧
    fs' !! download_filename self cid (dl_stamp e)
    = Some (File mtime (chunk_data pre)).
Proof.
  intros Hurl Hhttp Hdecl Hopen Hpre Hlim.
  unfold download_audio. rewrite Hurl, Hhttp, Hdecl, Hopen. simpl.
  edestruct (write_chunks_raise self (dl_mtime e)
               (download_filename self cid (dl_stamp e)) pre post true 0)
    as (fs' & m' & Hw & Hl); [done|lia|done|apply lookup_insert_eq|].
  rewrite Hw. exists fs', m'. done.
Qed.

(** ** process_audio *)

Lemma path_exists_true (p : string) (fs : gmap string entry) :
  path_exists p fs = true ↔ is_Some (fs !! p).
Proof. unfold path_exists. apply bool_decide_eq_true. Qed.

Lemma export_to_lookup (e : process_env) (audio : AudioSegment)
    (path p : string) (fs : gmap string entry) :
  is_Some (fs !! p) → is_Some ((export_to e audio path fs).1 !! p).
Proof.
  intros Hp. unfold export_to. simpl.
  destruct (ex_written _); [|done].
  destruct (decide (path = p)) as [->|Hne].
  - rewrite lookup_insert_eq. eauto.
  - by rewrite lookup_insert_ne.
Qed.

Lemma export_to_other (e : process_env) (audio : AudioSegment)
    (path name : string) (fs : gmap string entry) :
  name ≠ path → (export_to e audio path fs).1 !! name = fs !! name.
Proof.
  intros Hne. unfold export_to. simpl.
  destruct (ex_written _); [|done]. by rewrite lookup_insert_ne.
Qed.

Lemma stage_failure_inv (self : AudioProcessor) (e : process_env)
    (file_path : string) :
  stage_failure self e file_path →
  load_and_filter self e = None ∨
  ∃ audio out, load_and_filter self e = Some audio ∧
               export_path self file_path = Some out ∧
               ex_raises (pr_export e audio out) = true.
Proof.
  unfold load_and_filter.
  intros [Hl|audio Hl Hn Hf|audio audio' Hl Hn Hg Hf|audio out Hl Hp Hr].
  - left. by rewrite Hl.
  - left. rewrite Hl. simpl. by rewrite Hn, Hf.
  - left. rewrite Hl. simpl. rewrite Hn. simpl. by rewrite Hg.
  - right. eauto.
Qed.

(** For an input file that exists: when loading, normalization, gain
    control or the export raises, [process_audio] returns [None]; whenever it
    returns [None] there is still an entry at the input path (with what
    content is another matter, see below); and the entry is gone afterwards
    only if the formats differ and the converted file, at another path,
    exists and is the result. *)
Lemma process_audio_keeps_entry (self : AudioProcessor)
    (e : process_env) (file_path : string) (fs fs' : gmap string entry)
    (res : option string) :
  process_audio self e file_path fs = (fs', res) →
  is_Some (fs !! file_path) →
  (stage_failure self e file_path → res = None) ∧
  (res = None → is_Some (fs' !! file_path)) ∧
  (fs' !! file_path = None →
   ∃ out, res = Some out ∧ out ≠ file_path ∧
          needs_conversion self file_path = true ∧ is_Some (fs' !! out)).
Proof.
  intros Hrun Hin. unfold process_audio in Hrun.
  apply path_exists_true in Hin as Hex. rewrite Hex in Hrun.
  cbn [negb] in Hrun.
  destruct (load_and_filter self e) as [audio|] eqn:Hload.
  2:{ injection Hrun as <- <-. split_and!; [done|done|].
      intros Hnone. rewrite Hnone in Hin. by destruct Hin. }
  assert (Hfail : stage_failure self e file_path →
            ∃ out, export_path self file_path = Some out ∧
                   ex_raises (pr_export e audio out) = true).
  { intros [Hf|(a & out & Ha & Hout & Hr)]%stage_failure_inv; [congruence|].
    exists out. split; congruence. }
  unfold export_path in Hfail.
  destruct (needs_conversion self file_path) eqn:Hconv.
  - destruct (with_suffix file_path _) as [out|] eqn:Hout.
    2:{ injection Hrun as <- <-. split_and!; [done|done|].
        intros Hnone. rewrite Hnone in Hin. by destruct Hin. }
    pose proof (export_to_lookup e audio out file_path fs Hin) as Hkeep.
    destruct (export_to e audio out fs) as [fs1 raised] eqn:Hexp.
    assert (Hraised : raised = ex_raises (pr_export e audio out)).
    { unfold export_to in Hexp. by injection Hexp as _ <-. }
    simpl in Hkeep. cbv beta iota zeta in Hrun.
    destruct raised.
    { injection Hrun as <- <-. split_and!; [done|done|].
      intros Hnone. rewrite Hnone in Hkeep. by destruct Hkeep. }
    assert (Hnofail : ¬ stage_failure self e file_path).
    { intros (out' & [= <-] & Hr)%Hfail. congruence. }
    destruct (negb (String.eqb out file_path) && path_exists out fs1)
      eqn:Hguard.
    + apply andb_true_iff in Hguard as [Hne Hthere].
      apply negb_true_iff, String.eqb_neq in Hne.
      apply path_exists_true in Hthere.
      destruct (pr_unlink_raises e).
      { injection Hrun as <- <-. split_and!; [done|done|].
        intros Hnone. rewrite Hnone in Hkeep. by destruct Hkeep. }
      injection Hrun as <- <-. split_and!; [done|done|].
      intros _. exists out. split_and!; [done|done|done|].
      unfold unlink. by rewrite lookup_delete_ne.
    + injection Hrun as <- <-. split_and!; [done|done|].
      intros Hnone. rewrite Hnone in Hkeep. by destruct Hkeep.
  - pose proof (export_to_lookup e audio file_path file_path fs Hin) as Hkeep.
    destruct (export_to e audio file_path fs) as [fs1 raised] eqn:Hexp.
    assert (Hraised : raised = ex_raises (pr_export e audio file_path)).
    { unfold export_to in Hexp. by injection Hexp as _ <-. }
    simpl in Hkeep. cbv beta iota zeta in Hrun.
    destruct raised; injection Hrun as <- <-.
    + split_and!; [done|done|].
      intros Hnone. rewrite Hnone in Hkeep. by destruct Hkeep.
    + split_and!; [|done|].
      * intros (out' & [= <-] & Hr)%Hfail. congruence.
      * intros Hnone. rewrite Hnone in Hkeep. by destruct Hkeep.
Qed.

(** C5, where it fails. When the formats differ the export goes to another
    path, and every call that returns [None] leaves the input exactly as it
    was.  When the formats agree, as they do for every file that
    [download_audio] has named, the export goes over the input itself: an
    export that raises after it has opened its output returns [None] and
    leaves, at the input path, whatever the export wrote so far in place of
    the original. *)
Theorem process_audio_reexport_overwrites_original (self : AudioProcessor)
    (e : process_env) (file_path : string) (fs : gmap string entry) :
  is_Some (fs !! file_path) →
  (needs_conversion self file_path = true →
   export_path self file_path ≠ Some file_path →
   ∀ fs', process_audio self e file_path fs = (fs', None) →
          fs' !! file_path = fs !! file_path) ∧
  (needs_conversion self file_path = false →
   ∀ audio data,
     load_and_filter self e = Some audio →
     pr_export e audio file_path
     = {| ex_raises := true; ex_written := Some data |} →
     process_audio self e file_path fs
     = (<[file_path := File (pr_mtime e) data]> fs, None)).
Proof.
  intros Hin. apply path_exists_true in Hin as Hex.
  unfold process_audio, export_path. rewrite Hex. cbn [negb]. split.
  - intros Hconv Hout fs'. rewrite Hconv in Hout |- *.
    destruct (load_and_filter self e) as [audio|]; [|by intros [= <-]].
    destruct (with_suffix file_path _) as [out|]; [|by intros [= <-]].
    assert (Hne : file_path ≠ out) by congruence.
    pose proof (export_to_other e audio out file_path fs Hne) as Hkeep.
    destruct (export_to e audio out fs) as [fs1 raised]. simpl in Hkeep.
    destruct raised; [by intros [= <-]|].
    destruct (negb (String.eqb out file_path) && path_exists out fs1);
      [|done].
    destruct (pr_unlink_raises e); [by intros [= <-]|done].
  - intros Hconv audio data Hload Hexp. rewrite Hconv, Hload.
    unfold export_to. by rewrite Hexp.
Qed.

(** ** cleanup_old_files *)

Lemma cleanup_loop_spec (e : cleanup_env) (cutoff : Z)
    (listing : list (string * entry)) (fs : gmap string entry) (n : Z) :
  NoDup (listing.*1) →
  (∀ name ent, (name, ent) ∈ listing → fs !! name = Some ent) →
  let res := cleanup_loop e cutoff listing fs n in
  (∀ name, res.1 !! name = fs !! name ∨
           (res.1 !! name = None ∧
            ∃ mtime data, fs !! name = Some (File mtime data) ∧
                          mtime < cutoff)) ∧
  res.2 - n = Z.of_nat (size fs) - Z.of_nat (size res.1) ∧
  (no_cleanup_errors e →
   ∀ name mtime data, (name, File mtime data) ∈ listing → mtime < cutoff →
                      res.1 !! name = None).
Proof.
  revert fs n.
  induction listing as [|[name ent] rest IH]; intros fs n Hnd Hin; simpl.
  { split_and!; [by left|lia|]. intros _ ??? []%elem_of_nil. }
  simpl in Hnd. apply NoDup_cons in Hnd as [Hfresh Hnd].
  assert (Hrest : ∀ name' ent', (name', ent') ∈ rest →
                                fs !! name' = Some ent').
  { intros ?? ?. apply Hin. by apply list_elem_of_further. }
  destruct ent as [mtime data|].
  2:{ destruct (IH fs n Hnd Hrest) as (Ha & Hb & Hc).
      split_and!; [done|done|].
      intros Hok name' m' d' [[=]|Hmem]%elem_of_cons. by eapply Hc. }
  destruct (cl_stat_raises e name) eqn:Hstat.
  { simpl. split_and!; [by left|lia|]. intros Hok. destruct (Hok name).
    congruence. }
  destruct (Z.ltb_spec mtime cutoff) as [Hold|Hyoung].
  2:{ destruct (IH fs n Hnd Hrest) as (Ha & Hb & Hc).
      split_and!; [done|done|].
      intros Hok name' m' d' [[= -> -> ->]|Hmem]%elem_of_cons; [lia|].
      by eapply Hc. }
  destruct (cl_unlink_raises e name) eqn:Hunl.
  { simpl. split_and!; [by left|lia|]. intros Hok. destruct (Hok name).
    congruence. }
  assert (Hhere : fs !! name = Some (File mtime data)).
  { apply Hin. apply list_elem_of_here. }
  assert (Hrest' : ∀ name' ent', (name', ent') ∈ rest →
                                 unlink name fs !! name' = Some ent').
  { intros name' ent' Hmem. unfold unlink. rewrite lookup_delete_ne.
    - by apply Hrest.
    - intros ->. apply Hfresh. apply list_elem_of_fmap.
      exists (name', ent'). done. }
  destruct (IH (unlink name fs) (n + 1) Hnd Hrest') as (Ha & Hb & Hc).
  assert (Hgone : (cleanup_loop e cutoff rest (unlink name fs) (n + 1)).1
                  !! name = None).
  { destruct (Ha name) as [Heq|[Heq _]]; [|done].
    rewrite Heq. apply lookup_delete_eq. }
  split_and!.
  - intros name'. destruct (decide (name' = name)) as [->|Hne].
    + right. split; [done|]. eauto.
    + destruct (Ha name') as [Heq|(Heq & m' & d' & Hl & Hlt)].
      * left. rewrite Heq. unfold unlink. by rewrite lookup_delete_ne.
      * right. split; [done|]. exists m', d'. split; [|done].
        unfold unlink in Hl. by rewrite lookup_delete_ne in Hl.
  - unfold unlink in Hb |- *. rewrite map_size_delete_Some in Hb by eauto.
    assert (size fs ≠ 0%nat).
    { apply map_size_ne_0_lookup_2 with name. eauto. }
    lia.
  - intros Hok name' m' d' [[= -> -> ->]|Hmem]%elem_of_cons; [done|].
    by eapply Hc.
Qed.

(** C8. With [retention_days <= 0] the call changes nothing and returns 0.
    With [retention_days = D > 0] (and a cutoff that is a representable
    datetime) it returns; every entry is either left as it was or is a file,
    older than the cutoff, that has been removed; the returned count is the
    number of entries removed; and when no [stat] or [unlink] raises, no
    surviving file is older than the cutoff.  A cutoff before [datetime.min]
    makes the call raise before it touches anything. *)
Theorem cleanup_old_files_retention (self : AudioProcessor)
    (e : cleanup_env) (fs : gmap string entry) :
  let cutoff := cl_now e - days (retention_days self) in
  (retention_days self ≤ 0 → cleanup_old_files self e fs = Some (fs, 0)) ∧
  (0 < retention_days self → cutoff < datetime_min →
   cleanup_old_files self e fs = None) ∧
  (0 < retention_days self → datetime_min ≤ cutoff →
   ∃ res,
     cleanup_old_files self e fs = Some res ∧
     (∀ name, res.1 !! name = fs !! name ∨
              (res.1 !! name = None ∧
               ∃ mtime data, fs !! name = Some (File mtime data) ∧
                             mtime < cutoff)) ∧
     res.2 = Z.of_nat (size fs) - Z.of_nat (size res.1) ∧
     (no_cleanup_errors e →
      ∀ name mtime data, res.1 !! name = Some (File mtime data) →
                         cutoff ≤ mtime)).
Proof.
  intros cutoff. unfold cleanup_old_files, days_before. fold cutoff.
  destruct (Z.leb_spec (retention_days self) 0) as [Hoff|Hon].
  { split_and!; [done|lia|lia]. }
  destruct (Z.ltb_spec cutoff datetime_min) as [Hlow|Hin]; simpl.
  { split_and!; [lia|done|lia]. }
  split_and!; [lia|lia|]. intros _ _.
  destruct (cleanup_loop_spec e cutoff (map_to_list fs) fs 0)
    as (Ha & Hb & Hc).
  { apply NoDup_fst_map_to_list. }
  { intros ??. apply elem_of_map_to_list. }
  eexists. split; [done|]. split_and!.
  - done.
  - lia.
  - intros Hok name mtime data Hl.
    destruct (Z.le_gt_cases cutoff mtime) as [|Hlt]; [done|].
    assert (Hfs : fs !! name = Some (File mtime data)).
    { destruct (Ha name) as [Heq|[Heq _]]; congruence. }
    apply elem_of_map_to_list in Hfs.
    rewrite (Hc Hok _ _ _ Hfs Hlt) in Hl. done.
Qed.

(** ** perform_health_check *)

(** The status the function computes: an alert, when one fires, decides;
    the probes count only when none does, and a probe that returned a falsy
    result does not count at all. *)
Lemma overall_status_spec (db : db_probe) (api_healthy : bool)
    (disk_info memory_info : resource_info) :
  overall_status (perform_health_check db api_healthy disk_info memory_info)
  = if get_alert memory_info || get_alert disk_info then warning
    else if negb api_healthy then unhealthy
    else match db with ProbeRaises => unhealthy | ProbeResult _ => healthy end.
Proof.
  destruct db as [|[]], api_healthy, disk_info as [|[]], memory_info as [|[]];
    reflexivity.
Qed.

(** C2, evaluated where it fails. With the database reachable, the API
    unreachable and a disk-space alert, the API component is [unhealthy]
    and the overall status is [warning]. *)
Theorem health_check_alert_masks_unhealthy :
  let h := perform_health_check (ProbeResult true) false (Info true)
             InfoError in
  database_status h = healthy ∧ api_status h = unhealthy ∧
  get_alert (disk_space h) = true ∧ overall_status h = warning.
Proof. by split_and!. Qed.

(** ** parse_call_record *)

(** C9, evaluated where it fails. For the payload
    [{"id": 12345, "talkgroup": 55}] the parser returns a record whose
    [call_id] is the integer itself, not a string, while the numeric
    talkgroup is converted with [str]. *)
Theorem parse_call_record_numeric_id (e : parse_env) :
  ∃ r, parse_call_record e
         (PDict [("id", PInt 12345); ("talkgroup", PInt 55)]) = Some r ∧
       call_id r = PInt 12345 ∧ is_str (call_id r) = false ∧
       talkgroup r = Some (py_str (PInt 55)).
Proof. eexists. split; [reflexivity|]. by split_and!. Qed.

Lemma parse_call_record_fresh (e : parse_env) (raw : pyval) (r : CallRecord) :
  parse_call_record e raw = Some r →
  processed r = false ∧ audio_file_path r = None.
Proof.
  unfold parse_call_record. destruct raw; try done.
  intros Hr. repeat (apply bind_Some in Hr as (? & _ & Hr)).
  by injection Hr as <-.
Qed.

(** ** The ingestion cycle *)




Lemma batch_fold_has_ids (now : datetime) (rs : list CallRecord)
    (t : list Row) (c : pyval) :
  c ∈ c_call_id <$> t ∨ c ∈ call_id <$> rs →
  c ∈ c_call_id <$> fold_left (λ t' r, upsert_row now r t') rs t.
Proof.
  revert t. induction rs as [|r rs IH]; intros t Hc; simpl.
  { destruct Hc as [?|[]%elem_of_nil]. done. }
  apply IH. destruct Hc as [Hc|[->|Hc]%elem_of_cons].
  - left. by apply upsert_row_keeps_ids.
  - left. apply upsert_row_has_id.
  - by right.
Qed.


Lemma stored_processed_mark_other (e : db_env) (cid c : pyval)
    (t : list Row) :
  cid ≠ c →
  stored_processed c (mark_call_processed e cid t).1 = stored_processed c t.
Proof.
  intros Hne. unfold stored_processed. rewrite rows_of_mark.
  apply pyval_eqb_neq in Hne. rewrite Hne. by destruct (db_raises e).
Qed.

(** What [_process_call_audio] does to the monitor and to the record. *)
Lemma process_call_audio_spec (e : call_env) (r : CallRecord)
    (self : RdioScannerMonitor) :
  let res := _process_call_audio e r self in
  audio_processor res.1 = audio_processor self ∧
  c_call_id <$> calls res.1 = c_call_id <$> calls self ∧
  (∀ c, c ≠ call_id r →
        stored_processed c (calls res.1) = stored_processed c (calls self)) ∧
  call_id res.2 = call_id r ∧ audio_url res.2 = audio_url r ∧
  (res.2 = r ∨
   (processed res.2 = true ∧ audio_succeeded (audio_processor self) e res.2)).
Proof.
  unfold _process_call_audio.
  destruct (download_audio _ _ _ _ _) as [fs1 [audio_path|]] eqn:Hdl; simpl.
  2:{ split_and!; auto. }
  destruct (process_audio _ _ _ _) as [fs2 [out|]] eqn:Hpr; simpl.
  2:{ split_and!; auto. }
  split_and!; auto.
  - apply mark_call_processed_ids.
  - intros c Hc. by apply stored_processed_mark_other.
  - right. split; [done|]. unfold audio_succeeded. simpl.
    by exists (storage self), fs1, audio_path, fs2, out.
Qed.

Lemma process_calls_spec (env : nat → call_env)
    (parsed : list (nat * CallRecord)) (self : RdioScannerMonitor) :
  let res := process_calls env parsed self in
  audio_processor res.1 = audio_processor self ∧
  c_call_id <$> calls res.1 = c_call_id <$> calls self ∧
  (∀ c, (∀ ir, ir ∈ parsed → call_id ir.2 = c →
               truthy (audio_url ir.2) = false) →
        stored_processed c (calls res.1) = stored_processed c (calls self)) ∧
  Forall2 (λ ir r',
    call_id r' = call_id ir.2 ∧ audio_url r' = audio_url ir.2 ∧
    (r' = ir.2 ∨
     (truthy (audio_url ir.2) = true ∧ processed r' = true ∧
      audio_succeeded (audio_processor self) (env ir.1) r')))
    parsed res.2.
Proof.
  revert self. induction parsed as [|[i r] rest IH]; intros self; simpl.
  { split_and!; auto. }
  destruct (truthy (audio_url r)) eqn:Hurl.
  - pose proof (process_call_audio_spec (env i) r self) as Hone.
    destruct (_process_call_audio (env i) r self) as [self1 r1].
    simpl in Hone. destruct Hone as (Hcfg & Hids & Hst & Hid & Hu & Hr1).
    specialize (IH self1).
    destruct (process_calls env rest self1) as [self2 rest'].
    simpl in IH |- *. destruct IH as (Hcfg2 & Hids2 & Hst2 & Hall).
    split_and!.
    + congruence.
    + congruence.
    + intros c Hc. rewrite Hst2, Hst; [done| |].
      * intros ->. specialize (Hc (i, r) (list_elem_of_here _ _) eq_refl).
        simpl in Hc. congruence.
      * intros ir Hir. apply Hc. by apply list_elem_of_further.
    + constructor.
      * simpl. split_and!; [done|done|]. destruct Hr1 as [->|[? ?]]; auto.
      * rewrite <- Hcfg. done.
  - specialize (IH self).
    destruct (process_calls env rest self) as [self2 rest'].
    simpl in IH |- *. destruct IH as (Hcfg2 & Hids2 & Hst2 & Hall).
    split_and!; [done|done| |].
    + intros c Hc. apply Hst2.
      intros ir Hir. apply Hc. by apply list_elem_of_further.
    + constructor; [|done]. simpl. auto.
Qed.


Lemma parse_calls_audio_path (env : nat → call_env) (i : nat)
    (calls_data : list pyval) :
  Forall (λ ir, audio_file_path ir.2 = None) (parse_calls env i calls_data).
Proof.
  revert i. induction calls_data as [|x rest IH]; intros i; simpl.
  { constructor. }
  destruct (parse_call_record _ x) as [r|] eqn:Hp; [|done].
  constructor; [|done]. simpl. by apply parse_call_record_fresh in Hp as [_ ?].
Qed.

(** The cycle, once the two early returns and the abort are set apart. *)
Lemma poll_and_process_calls_spec (e : poll_env) (self : RdioScannerMonitor) :
  let parsed := parse_calls (po_call e) 0 (fetch_calls (po_fetch e)) in
  let res := poll_and_process_calls e self in
  (parsed = [] ∧ res = (self, [])) ∨
  (parsed ≠ [] ∧ db_raises (po_insert e) = true ∧
   po_insert_escapes e = true ∧ res = (cycle_aborted self, parsed.*2)) ∨
  (parsed ≠ [] ∧ db_raises (po_insert e) && po_insert_escapes e = false ∧
   ∃ self2,
     process_calls (po_call e) parsed
       (with_store self
          (insert_call_records_batch (po_insert e) (parsed.*2) (calls self)).1
          (storage self))
     = (self2, res.2) ∧
     calls res.1 = calls self2 ∧
     last_poll_time res.1 = Some (po_now e) ∧
     system_monitor res.1
     = record_call_processed (po_processing_time e) (system_monitor self2) ∧
     audio_processor res.1 = audio_processor self2 ∧
     storage res.1 = storage self2).
Proof.
  intros parsed res. subst res. unfold poll_and_process_calls.
  fold parsed. destruct (fetch_calls (po_fetch e)) as [|x data] eqn:Hfetch.
  { left. done. }
  destruct parsed as [|ir rest] eqn:Hparsed; [by left|right].
  destruct (db_raises (po_insert e) && po_insert_escapes e) eqn:Habort.
  { left. apply andb_true_iff in Habort as [? ?]. done. }
  right. split; [done|]. split; [done|].
  destruct (process_calls _ _ _) as [self2 call_records].
  by exists self2.
Qed.

Lemma batch_insert_ok (e : db_env) (rs : list CallRecord) (t : list Row) :
  db_raises e = false →
  (insert_call_records_batch e rs t).1
  = fold_left (λ t' r, upsert_row (db_now e) r t') rs t.
Proof.
  intros He. unfold insert_call_records_batch. rewrite He. by destruct rs.
Qed.













(** ** Further properties of the [calls] table *)


Lemma mark_no_row (now : datetime) (cid : pyval) (t : list Row) :
  existsb (has_call_id cid) t = false →
  map (λ row, if has_call_id cid row then set_processed now row else row) t
  = t.
Proof.
  induction t as [|row t IH]; simpl; [done|].
  intros [Hrow Hrest]%orb_false_iff. rewrite Hrow. f_equal. by apply IH.
Qed.

(** X3. [mark_call_processed] returns [True] exactly when the statement
    went through and a row with that [call_id] exists; then the stored flag
    is true.  When it returns [False] the table is as before.  It never
    changes the number of rows. *)
Theorem mark_call_processed_result (e : db_env) (cid : pyval)
    (t : list Row) :
  let res := mark_call_processed e cid t in
  (res.2 = true ↔ db_raises e = false ∧ cid ∈ c_call_id <$> t) ∧
  (res.2 = false → res.1 = t) ∧
  (res.2 = true → stored_processed cid res.1 = Some true) ∧
  length res.1 = length t.
Proof.
  intros res. subst res. unfold mark_call_processed.
  destruct (db_raises e) eqn:He; simpl.
  { split_and!; [|done|done|done]. split; [done|]. by intros [? _]. }
  split_and!.
  - rewrite existsb_has_call_id. split; [done|]. by intros [_ ?].
  - apply mark_no_row.
  - intros Hex. pose proof (rows_of_mark e cid cid t) as Hrows.
    unfold mark_call_processed in Hrows. rewrite He in Hrows.
    simpl in Hrows. unfold stored_processed.
    rewrite Hrows, pyval_eqb_refl.
    destruct (rows_of cid t) as [|row rows] eqn:Hr; [|done].
    apply rows_of_nil_iff in Hr. apply existsb_has_call_id in Hex. done.
  - by rewrite length_map.
Qed.

Lemma run_op_grows (op : db_op) (t : list Row) :
  (length t ≤ length (run_op op t))%nat ∧
  ∀ c, c ∈ c_call_id <$> t → c ∈ c_call_id <$> run_op op t.
Proof.
  assert (Hfold : ∀ now rs t0,
            (length t0 ≤ length (fold_left (λ t' r, upsert_row now r t') rs t0))%nat ∧
            ∀ c, c ∈ c_call_id <$> t0 →
                 c ∈ c_call_id <$> fold_left (λ t' r, upsert_row now r t') rs t0).
  { intros now rs. induction rs as [|r rs IH]; intros t0; simpl; [done|].
    destruct (IH (upsert_row now r t0)) as [Hl Hi]. split.
    - rewrite upsert_row_length in Hl. destruct (existsb _ t0); lia.
    - intros c Hc. apply Hi. by apply upsert_row_keeps_ids. }
  destruct op as [e r|e rs|e cid]; simpl.
  - unfold insert_call_record. destruct (db_raises e); [done|]. simpl.
    apply (Hfold _ [r]).
  - unfold insert_call_records_batch. destruct rs as [|r rs]; [done|].
    destruct (db_raises e); [done|]. apply Hfold.
  - rewrite mark_call_processed_ids. split; [|done].
    unfold mark_call_processed. destruct (db_raises e); [done|]. simpl.
    by rewrite length_map.
Qed.

(** X4. Whatever sequence of upserts and [mark_call_processed] runs on a
    table whose [call_id]s are distinct, the [call_id]s stay distinct, no
    row is lost and every [call_id] that had a row still has one. *)
Theorem run_ops_keeps_table_sound (ops : list db_op) (t : list Row) :
  unique_call_ids t →
  unique_call_ids (run_ops ops t) ∧
  (length t ≤ length (run_ops ops t))%nat ∧
  ∀ c, c ∈ c_call_id <$> t → c ∈ c_call_id <$> run_ops ops t.
Proof.
  intros Hu. split; [by apply run_ops_unique|].
  clear Hu. unfold run_ops. revert t.
  induction ops as [|op ops IH]; intros t; simpl; [done|].
  destruct (run_op_grows op t) as [Hl Hi].
  destruct (IH (run_op op t)) as [Hl' Hi']. split; [lia|].
  intros c Hc. apply Hi'. by apply Hi.
Qed.

(** ** Further properties of the parser *)

Lemma dict_get_present (d : list (string * pyval)) (key : string)
    (default : pyval) :
  truthy (dict_get d key PNone) = true →
  dict_get d key default = dict_get d key PNone.
Proof.
  induction d as [|[k v] d IH]; simpl; [done|].
  destruct (String.eqb k key); [done|]. apply IH.
Qed.

Lemma float_field_none (d : list (string * pyval)) (key : string) :
  float_field d key = None ↔
  truthy (dict_get d key PNone) = true ∧
  py_float (dict_get d key PNone) = None.
Proof.
  unfold float_field. destruct (truthy (dict_get d key PNone)) eqn:Ht.
  - rewrite dict_get_present by done. split; [done|]. by intros [_ ?].
  - split; [done|]. by intros [? _].
Qed.

Lemma parse_timestamp_none (e : parse_env) (raw : pyval) :
  parse_timestamp e raw = None ↔
  is_number raw = true ∧ fromtimestamp raw = None.
Proof.
  unfold parse_timestamp. destruct (is_number raw) eqn:Hn.
  - split; [done|]. by intros [_ ?].
  - split; [|by intros [? _]]. by destruct raw.
Qed.

(** X5. [parse_call_record] returns [None] for every payload that is not a
    dict, and for a dict exactly when a numeric timestamp is rejected by
    [datetime.fromtimestamp] or a truthy ['frequency'] or ['duration'] is
    rejected by [float]; nothing else in a payload makes it fail. *)
Theorem parse_call_record_fails_iff (e : parse_env) (raw : pyval) :
  parse_call_record e raw = None ↔
  match raw with
  | PDict d =>
      let get k := dict_get d k PNone in
      let ts := py_or (get "timestamp") (py_or (get "time") (get "datetime")) in
      (is_number ts = true ∧ fromtimestamp ts = None) ∨
      (truthy (get "frequency") = true ∧ py_float (get "frequency") = None) ∨
      (truthy (get "duration") = true ∧ py_float (get "duration") = None)
  | _ => True
  end.
Proof.
  destruct raw as [| | | | | |d]; try done.
  cbv zeta. rewrite <- (parse_timestamp_none e), <- !float_field_none.
  unfold parse_call_record.
  destruct (parse_timestamp e _) as [ts|]; simpl.
  2:{ split; [intros _; by left|done]. }
  destruct (float_field d "frequency") as [f|]; simpl.
  2:{ split; [intros _; right; by left|done]. }
  destruct (float_field d "duration") as [x|]; simpl.
  2:{ split; [intros _; right; by right|done]. }
  split; [done|]. by intros [|[|]].
Qed.

(** X6. The [call_id] of an accepted record is the payload's ['id'] when
    that is truthy, else its ['call_id'] when that is truthy, else the
    generated UUID; so with a non-empty UUID it is never a falsy value (no
    [None], no empty string, no zero). *)
Theorem parse_call_record_call_id (e : parse_env)
    (d : list (string * pyval)) (r : CallRecord) :
  parse_call_record e (PDict d) = Some r →
  call_id r =
    (if truthy (dict_get d "id" PNone) then dict_get d "id" PNone
     else if truthy (dict_get d "call_id" PNone)
          then dict_get d "call_id" PNone
          else PStr (pe_uuid e)) ∧
  (pe_uuid e ≠ "" → truthy (call_id r) = true).
Proof.
  unfold parse_call_record. intros Hr.
  repeat (apply bind_Some in Hr as (? & _ & Hr)).
  injection Hr as <-. simpl. unfold py_or.
  split; [done|]. intros Hu.
  destruct (truthy (dict_get d "id" PNone)) eqn:H1; [done|].
  destruct (truthy (dict_get d "call_id" PNone)) eqn:H2; [done|].
  simpl. by apply negb_true_iff, String.eqb_neq.
Qed.

(** X7. An accepted record keeps the whole payload as its [metadata],
    starts unprocessed and without a local audio path, and its [units] are
    the payload's list, a one-element list for a string, and empty for
    anything else. *)
Theorem parse_call_record_initial_state (e : parse_env) (raw : pyval)
    (r : CallRecord) :
  parse_call_record e raw = Some r →
  metadata r = raw ∧ processed r = false ∧ audio_file_path r = None ∧
  created_at r = pe_created e ∧
  ∃ d, raw = PDict d ∧
       units r = match dict_get d "units" (PList []) with
                 | PStr s => [PStr s]
                 | PList l => l
                 | _ => []
                 end.
Proof.
  unfold parse_call_record. destruct raw as [| | | | | |d]; try done.
  intros Hr. repeat (apply bind_Some in Hr as (? & _ & Hr)).
  injection Hr as <-. simpl. split_and!; try done.
  exists d. split; [done|]. unfold parse_units.
  by destruct (dict_get d "units" (PList [])).
Qed.

(** ** Further properties of the monitors *)

(** X8. [record_call_processed] counts one more call, leaves the error
    count alone, and keeps the newest processing times: the list ends with
    the new time, is a suffix of the old list with the new time appended,
    and has [min (old length + 1) 1000] entries. *)
Theorem record_call_processed_window (processing_time : Z)
    (m : SystemMonitor) :
  let m' := record_call_processed processing_time m in
  call_count m' = call_count m + 1 ∧
  error_count m' = error_count m ∧
  processing_times m' `suffix_of` processing_times m ++ [processing_time] ∧
  last (processing_times m') = Some processing_time ∧
  length (processing_times m')
  = Nat.min (S (length (processing_times m))) 1000.
Proof.
  intros m'. subst m'. unfold record_call_processed. simpl.
  set (times := processing_times m ++ [processing_time]).
  assert (Hlen : length times = S (length (processing_times m))).
  { subst times. rewrite length_app. simpl. lia. }
  split_and!; [done|done| | |].
  - destruct (1000 <? length times)%nat; [apply suffix_drop|done].
  - destruct (Nat.ltb_spec 1000 (length times)).
    + subst times. rewrite drop_app_le by lia. apply last_snoc.
    + subst times. apply last_snoc.
  - destruct (Nat.ltb_spec 1000 (length times)).
    + rewrite length_drop. lia.
    + lia.
Qed.

(** X9. The overall status of [perform_health_check] is [healthy] exactly
    when no alert fired, the API probe succeeded and the database probe did
    not raise, whatever the probe's result was; it is [unhealthy] exactly
    when no alert fired and the API probe failed or the database probe
    raised. *)
Theorem overall_status_cases (db : db_probe) (api_healthy : bool)
    (disk_info memory_info : resource_info) :
  let h := perform_health_check db api_healthy disk_info memory_info in
  (overall_status h = healthy ↔
   get_alert disk_info = false ∧ get_alert memory_info = false ∧
   api_healthy = true ∧ db ≠ ProbeRaises) ∧
  (overall_status h = unhealthy ↔
   get_alert disk_info = false ∧ get_alert memory_info = false ∧
   (api_healthy = false ∨ db = ProbeRaises)) ∧
  (overall_status h = warning ↔
   get_alert disk_info = true ∨ get_alert memory_info = true).
Proof.
  intros h. subst h. rewrite overall_status_spec.
  destruct db as [|[]], api_healthy, disk_info as [|[]], memory_info as [|[]];
    simpl; split_and!; split; try done; try tauto;
    try (intros (? & ? & ? & ?); done);
    try (intros (? & ? & [?|?]); done);
    try (intros [?|?]; done); auto.
Qed.

(** ** Further properties of the audio pipeline *)

Lemma append_data_other (mtime : Z) (p name : string) (data : list byte)
    (fs : gmap string entry) :
  name ≠ p → append_data mtime p data fs !! name = fs !! name.
Proof.
  intros Hne. unfold append_data.
  destruct (fs !! p) as [[]|]; by rewrite lookup_insert_ne.
Qed.

Lemma write_chunks_other (self : AudioProcessor) (mtime : Z)
    (file_path : string) (body : list stream_item) (downloaded : Z)
    (fs : gmap string entry) (name : string) :
  name ≠ file_path →
  (write_chunks self mtime file_path body downloaded fs).1 !! name
  = fs !! name.
Proof.
  intros Hne. revert downloaded fs.
  induction body as [|item body IH]; intros downloaded fs; [done|].
  destruct item as [[|b data]|]; [apply IH| |done].
  cbn [write_chunks].
  destruct ((0 <? max_file_size self) && _); simpl.
  - unfold unlink. rewrite lookup_delete_ne by done.
    by apply append_data_other.
  - rewrite IH. by apply append_data_other.
Qed.

Lemma write_chunks_complete (self : AudioProcessor) (mtime : Z)
    (file_path : string) (body : list stream_item) (downloaded : Z)
    (fs : gmap string entry) (m0 : Z) (old : list byte) :
  Forall is_chunk body →
  0 ≤ downloaded →
  ¬ (0 < max_file_size self ∧
     max_file_size self < downloaded + chunk_bytes body) →
  fs !! file_path = Some (File m0 old) →
  ∃ fs' m',
    write_chunks self mtime file_path body downloaded fs
    = (fs', WriteComplete (downloaded + chunk_bytes body)) ∧
    fs' !! file_path = Some (File m' (old ++ chunk_data body)) ∧
    (m' = m0 ∨ m' = mtime).
Proof.
  revert downloaded fs m0 old.
  induction body as [|item body IH]; intros downloaded fs m0 old Hb Hd Hlim Hfs.
  { simpl. exists fs, m0. unfold chunk_bytes. simpl.
    rewrite app_nil_r, Z.add_0_r. auto. }
  apply Forall_cons in Hb as [Hitem Hb].
  destruct item as [data|]; [|done].
  destruct data as [|x data].
  { simpl. eapply IH; done. }
  cbn [write_chunks].
  set (d := downloaded + Z.of_nat (length (x :: data))).
  assert (Hsplit : chunk_bytes (Chunk (x :: data) :: body)
                   = Z.of_nat (length (x :: data)) + chunk_bytes body).
  { unfold chunk_bytes. cbn [chunk_data]. rewrite length_app. lia. }
  assert (Hpos : 0 ≤ chunk_bytes body) by (unfold chunk_bytes; lia).
  destruct ((0 <? max_file_size self) && (max_file_size self <? d)) eqn:Hc.
  { exfalso. apply Hlim. apply andb_true_iff in Hc as [H1 H2].
    apply Z.ltb_lt in H1, H2. lia. }
  edestruct (IH d (append_data mtime file_path (x :: data) fs))
    as (fs' & m' & Hw & Hl & Hm);
    [done|lia| |by eapply append_data_lookup|].
  { intros [H1 H2]. apply Hlim. lia. }
  exists fs', m'. split_and!.
  - rewrite Hw. do 2 f_equal. lia.
  - rewrite Hl. cbn [chunk_data]. by rewrite <- app_assoc.
  - right. by destruct Hm.
Qed.

(** X10. A download that meets no obstacle (the URL is truthy, the request
    succeeds, the header passes the size check, the file opens, the body
    arrives whole and within the limit) returns the file's path, and the
    file holds exactly the bytes of the body's chunks, in order. *)
Theorem download_audio_stores_body (self : AudioProcessor)
    (e : download_env) (url cid : pyval) (fs : gmap string entry)
    (content_length : option string) (body : list stream_item) :
  truthy url = true →
  dl_http e = HttpResponse content_length body →
  declared_too_large self content_length = Some false →
  dl_open_raises e = false →
  Forall is_chunk body →
  ¬ (0 < max_file_size self ∧ max_file_size self < chunk_bytes body) →
  ∃ fs',
    download_audio self e url cid fs
    = (fs', Some (download_filename self cid (dl_stamp e))) ∧
    fs' !! download_filename self cid (dl_stamp e)
    = Some (File (dl_mtime e) (chunk_data body)).
Proof.
  intros Hurl Hhttp Hdecl Hopen Hbody Hlim.
  unfold download_audio. rewrite Hurl, Hhttp, Hdecl, Hopen. simpl.
  edestruct (write_chunks_complete self (dl_mtime e)
               (download_filename self cid (dl_stamp e)) body 0)
    as (fs' & m' & Hw & Hl & Hm);
    [done|lia|done|apply lookup_insert_eq|].
  rewrite Hw. exists fs'. split; [done|]. rewrite Hl.
  by destruct Hm as [->| ->].
Qed.

(** X11. Whatever happens during a download, the only entry of the
    directory it can create, change or remove is the one under the
    download's own file name. *)
Theorem download_audio_touches_one_name (self : AudioProcessor)
    (e : download_env) (url cid : pyval) (fs : gmap string entry)
    (name : string) :
  name ≠ download_filename self cid (dl_stamp e) →
  (download_audio self e url cid fs).1 !! name = fs !! name.
Proof.
  intros Hne. unfold download_audio.
  destruct (truthy url); simpl; [|done].
  destruct (dl_http e) as [|content_length body]; [done|].
  destruct (declared_too_large self content_length) as [[]|]; try done.
  destruct (dl_open_raises e); [done|].
  pose proof (write_chunks_other self (dl_mtime e)
                (download_filename self cid (dl_stamp e)) body 0
                (<[download_filename self cid (dl_stamp e) :=
                     File (dl_mtime e) []]> fs) name Hne) as Hw.
  rewrite lookup_insert_ne in Hw by done.
  destruct (write_chunks _ _ _ _ _ _) as [fs' []]; done.
Qed.

(** X12. [process_audio] can change the directory only at the input path
    and at the path it exports to; every other entry is left as it was. *)
Theorem process_audio_touches_two_names (self : AudioProcessor)
    (e : process_env) (file_path : string) (fs : gmap string entry)
    (name : string) :
  name ≠ file_path →
  export_path self file_path ≠ Some name →
  (process_audio self e file_path fs).1 !! name = fs !! name.
Proof.
  intros Hin Hout. unfold process_audio, export_path in *.
  destruct (negb (path_exists file_path fs)); [done|].
  destruct (load_and_filter self e) as [audio|]; [|done].
  destruct (needs_conversion self file_path).
  - destruct (with_suffix file_path _) as [out|]; [|done].
    assert (Hne : name ≠ out) by congruence.
    pose proof (export_to_other e audio out name fs Hne) as Hexp.
    destruct (export_to e audio out fs) as [fs1 raised]. simpl in Hexp.
    destruct raised; [done|].
    destruct (negb (String.eqb out file_path) && path_exists out fs1);
      [|done].
    destruct (pr_unlink_raises e); [done|]. simpl.
    unfold unlink. by rewrite lookup_delete_ne.
  - assert (Hne : name ≠ file_path) by done.
    pose proof (export_to_other e audio file_path name fs Hne) as Hexp.
    destruct (export_to e audio file_path fs) as [fs1 raised].
    simpl in Hexp. by destruct raised.
Qed.

(** X13. With [normalize_audio] switched on, every file whose audio is not
    silent is rejected: [_normalize_audio] raises on it, [process_audio]
    returns [None] and the directory is left as it was. *)
Theorem process_audio_normalize_rejects_sound (self : AudioProcessor)
    (e : process_env) (file_path : string) (fs : gmap string entry)
    (audio : AudioSegment) :
  normalize_audio self = true →
  pr_load e = Some audio →
  seg_max audio ≠ 0 →
  process_audio self e file_path fs = (fs, None).
Proof.
  intros Hnorm Hload Hmax. unfold process_audio.
  destruct (negb (path_exists file_path fs)); [done|].
  unfold load_and_filter. rewrite Hload, Hnorm. simpl.
  unfold _normalize_audio. apply Z.eqb_neq in Hmax. by rewrite Hmax.
Qed.

Lemma cleanup_loop_all_young (e : cleanup_env) (cutoff : Z)
    (listing : list (string * entry)) (fs : gmap string entry) (n : Z) :
  no_cleanup_errors e →
  (∀ name mtime data, (name, File mtime data) ∈ listing → cutoff ≤ mtime) →
  cleanup_loop e cutoff listing fs n = (fs, n).
Proof.
  intros Hok. induction listing as [|[name ent] rest IH]; intros Hy; [done|].
  assert (Hrest : ∀ name mtime data,
            (name, File mtime data) ∈ rest → cutoff ≤ mtime).
  { intros ??? ?. eapply Hy. by apply list_elem_of_further. }
  destruct ent as [mtime data|]; simpl; [|by apply IH].
  destruct (Hok name) as [-> _].
  assert (cutoff ≤ mtime) by (eapply Hy; apply list_elem_of_here).
  destruct (Z.ltb_spec mtime cutoff); [lia|]. by apply IH.
Qed.

(** X14. After a pruning pass in which nothing raised, a second pass with
    the same clock and retention finds nothing left to delete: it returns 0
    and leaves the directory as the first pass left it. *)
Theorem cleanup_old_files_settles (self : AudioProcessor) (e : cleanup_env)
    (fs : gmap string entry) (res : gmap string entry * Z) :
  no_cleanup_errors e →
  cleanup_old_files self e fs = Some res →
  cleanup_old_files self e res.1 = Some (res.1, 0).
Proof.
  intros Hok. unfold cleanup_old_files.
  destruct (retention_days self <=? 0); [by intros [= <-]|].
  destruct (days_before _ _) as [cutoff|]; simpl; [|done].
  intros [= <-]. f_equal.
  destruct (cleanup_loop_spec e cutoff (map_to_list fs) fs 0)
    as (Ha & _ & Hc).
  { apply NoDup_fst_map_to_list. }
  { intros ??. apply elem_of_map_to_list. }
  apply cleanup_loop_all_young; [done|].
  intros name mtime data Hin%elem_of_map_to_list.
  destruct (Z.le_gt_cases cutoff mtime) as [|Hlt]; [done|].
  assert (Hfs : fs !! name = Some (File mtime data)).
  { destruct (Ha name) as [Heq|[Heq _]]; congruence. }
  apply elem_of_map_to_list in Hfs.
  rewrite (Hc Hok _ _ _ Hfs Hlt) in Hin. done.
Qed.

(** ** get_storage_stats *)

Lemma format_total_count (file_ext : string) (fm : gmap string Z) :
  format_total (count_format file_ext fm) = format_total fm + 1.
Proof.
  unfold format_total, count_format.
  destruct (fm !! file_ext) as [n|] eqn:Hn.
  - rewrite <- insert_delete_eq.
    rewrite map_fold_insert_L; [|intros; lia|apply lookup_delete_eq].
    rewrite (map_fold_delete_L _ _ file_ext n fm); [lia|intros; lia|done].
  - rewrite map_fold_insert_L; [lia|intros; lia|done].
Qed.

Lemma listed_nonneg (listing : list (string * entry)) :
  0 ≤ listed_files listing ∧ 0 ≤ listed_bytes listing.
Proof.
  induction listing as [|[name [m d|]] rest [IH1 IH2]]; simpl; lia.
Qed.

Lemma storage_stats_loop_spec (e : stats_env)
    (listing : list (string * entry)) (s : storage_stats) :
  let res := storage_stats_loop e listing s in
  (format_total (formats s) = total_files s →
   0 ≤ total_files res - format_total (formats res) ≤ 1) ∧
  total_files s ≤ total_files res ≤ total_files s + listed_files listing ∧
  total_size_bytes s ≤ total_size_bytes res
    ≤ total_size_bytes s + listed_bytes listing ∧
  (no_stat_errors e →
   total_files res = total_files s + listed_files listing ∧
   total_size_bytes res = total_size_bytes s + listed_bytes listing ∧
   format_total (formats res) = format_total (formats s) + listed_files listing).
Proof.
  revert s. induction listing as [|[name ent] rest IH]; intros s; simpl.
  { split_and!; intros; lia. }
  destruct ent as [mtime data|]; [|apply IH].
  pose proof (listed_nonneg rest) as [Hf Hb].
  destruct (st_size_raises e name) eqn:Hsize; simpl.
  { split_and!; try (intros; lia).
    intros Hok. destruct (Hok name). congruence. }
  destruct (st_mtime_raises e name) eqn:Hmtime; simpl.
  { rewrite format_total_count. split_and!; try (intros; lia).
    intros Hok. destruct (Hok name). congruence. }
  match goal with |- context [storage_stats_loop e rest ?s1] =>
    destruct (IH s1) as (H1 & H2 & H3 & H4) end.
  simpl in H1, H2, H3, H4. rewrite format_total_count in H1, H4.
  split_and!; try lia.
  intros Hok. destruct (H4 Hok) as (? & ? & ?). lia.
Qed.

(** X15. In the statistics that [get_storage_stats] returns, the per-format
    counts add up to [total_files], or to one less when the pass was cut
    short by a [stat] that raised right after a file was counted; the file
    count and the byte total never exceed what the directory holds, and
    equal it when nothing raised. *)
Theorem get_storage_stats_counts (e : stats_env) (fs : gmap string entry) :
  let s := get_storage_stats e fs in
  0 ≤ total_files s - format_total (formats s) ≤ 1 ∧
  0 ≤ total_files s ≤ listed_files (map_to_list fs) ∧
  0 ≤ total_size_bytes s ≤ listed_bytes (map_to_list fs) ∧
  (no_stat_errors e →
   total_files s = listed_files (map_to_list fs) ∧
   total_size_bytes s = listed_bytes (map_to_list fs) ∧
   format_total (formats s) = total_files s).
Proof.
  intros s. subst s. unfold get_storage_stats.
  destruct (storage_stats_loop_spec e (map_to_list fs) empty_stats)
    as (H1 & H2 & H3 & H4).
  simpl in H1, H2, H3, H4.
  assert (H0 : format_total (∅ : gmap string Z) = 0)
    by apply map_fold_empty.
  rewrite H0 in H1, H4. specialize (H1 eq_refl).
  split_and!; try lia.
  intros Hok. destruct (H4 Hok) as (? & ? & ?). lia.
Qed.

Lemma storage_stats_loop_extremes (e : stats_env)
    (listing seen : list (string * entry)) (s : storage_stats) :
  no_stat_errors e →
  extremes_of seen s →
  extremes_of (seen ++ listing) (storage_stats_loop e listing s).
Proof.
  intros Hok. revert seen s.
  induction listing as [|[name ent] rest IH]; intros seen s Hs; simpl.
  { by rewrite app_nil_r. }
  replace (seen ++ (name, ent) :: rest) with ((seen ++ [(name, ent)]) ++ rest)
    by (by rewrite <- app_assoc).
  assert (Hfiles : ∀ l x, listed_files (l ++ [x])
                          = listed_files l + listed_files [x]).
  { intros l x. induction l as [|[? [|]] l IHl]; simpl in *; lia. }
  destruct ent as [mtime data|].
  2:{ apply IH. destruct Hs as [Ho Hn]. split.
      - destruct (oldest_time s) as [t|].
        + destruct Ho as (n & d & ? & Hin & Hmin). exists n, d.
          split_and!; [done|apply elem_of_app; by left|].
          intros n' t' d' [?|[=]%list_elem_of_singleton]%elem_of_app.
          by eapply Hmin.
        + destruct Ho as [? Hz]. split; [done|]. rewrite Hfiles. simpl. lia.
      - destruct (newest_time s) as [t|].
        + destruct Hn as (n & d & ? & Hin & Hmax). exists n, d.
          split_and!; [done|apply elem_of_app; by left|].
          intros n' t' d' [?|[=]%list_elem_of_singleton]%elem_of_app.
          by eapply Hmax.
        + destruct Hn as [? Hz]. split; [done|]. rewrite Hfiles. simpl. lia. }
  destruct (Hok name) as [-> ->]. apply IH.
  destruct Hs as [Ho Hn]. split; simpl.
  - destruct (oldest_time s) as [t|].
    + destruct Ho as (n & d & Hf & Hin & Hmin).
      destruct (Z.ltb_spec mtime t).
      * exists name, data. split_and!; [done| |].
        -- apply elem_of_app. right. apply list_elem_of_here.
        -- intros n' t' d' [Hin'|[= -> -> ->]%list_elem_of_singleton]%elem_of_app;
             [|lia]. specialize (Hmin _ _ _ Hin'). lia.
      * exists n, d. split_and!; [done|apply elem_of_app; by left|].
        intros n' t' d' [Hin'|[= -> -> ->]%list_elem_of_singleton]%elem_of_app;
          [by eapply Hmin|lia].
    + exists name, data. destruct Ho as [_ Hz]. split_and!; [done| |].
      * apply elem_of_app. right. apply list_elem_of_here.
      * intros n' t' d' [Hin'|[= -> -> ->]%list_elem_of_singleton]%elem_of_app;
          [|lia].
        exfalso. clear -Hin' Hz.
        induction seen as [|[? [|]] seen IHs]; simpl in *.
        -- by apply elem_of_nil in Hin'.
        -- pose proof (listed_nonneg seen). lia.
        -- apply elem_of_cons in Hin' as [[=]|Hin']. by apply IHs.
  - destruct (newest_time s) as [t|].
    + destruct Hn as (n & d & Hf & Hin & Hmax).
      destruct (Z.ltb_spec t mtime).
      * exists name, data. split_and!; [done| |].
        -- apply elem_of_app. right. apply list_elem_of_here.
        -- intros n' t' d' [Hin'|[= -> -> ->]%list_elem_of_singleton]%elem_of_app;
             [|lia]. specialize (Hmax _ _ _ Hin'). lia.
      * exists n, d. split_and!; [done|apply elem_of_app; by left|].
        intros n' t' d' [Hin'|[= -> -> ->]%list_elem_of_singleton]%elem_of_app;
          [by eapply Hmax|lia].
    + exists name, data. destruct Hn as [_ Hz]. split_and!; [done| |].
      * apply elem_of_app. right. apply list_elem_of_here.
      * intros n' t' d' [Hin'|[= -> -> ->]%list_elem_of_singleton]%elem_of_app;
          [|lia].
        exfalso. clear -Hin' Hz.
        induction seen as [|[? [|]] seen IHs]; simpl in *.
        -- by apply elem_of_nil in Hin'.
        -- pose proof (listed_nonneg seen). lia.
        -- apply elem_of_cons in Hin' as [[=]|Hin']. by apply IHs.
Qed.

(** X16. When no [stat] raises, the file that [get_storage_stats] reports
    as oldest is a file of the directory and no file there has an earlier
    modification time; likewise, with the order reversed, for the newest.  *)
Theorem get_storage_stats_extremes (e : stats_env) (fs : gmap string entry) :
  no_stat_errors e →
  let s := get_storage_stats e fs in
  (∀ n, oldest_file s = Some n →
        ∃ t d, fs !! n = Some (File t d) ∧
               ∀ n' t' d', fs !! n' = Some (File t' d') → t ≤ t') ∧
  (∀ n, newest_file s = Some n →
        ∃ t d, fs !! n = Some (File t d) ∧
               ∀ n' t' d', fs !! n' = Some (File t' d') → t' ≤ t).
Proof.
  intros Hok s. subst s. unfold get_storage_stats.
  destruct (storage_stats_loop_extremes e (map_to_list fs) [] empty_stats Hok)
    as [Ho Hn].
  { split; simpl; done. }
  simpl in Ho, Hn. split.
  - intros n Hf. destruct (oldest_time _) as [t|].
    + destruct Ho as (n0 & d & Hf0 & Hin & Hmin).
      rewrite Hf in Hf0. injection Hf0 as <-.
      exists t, d. split; [by apply elem_of_map_to_list|].
      intros n' t' d' Hl. eapply Hmin. by apply elem_of_map_to_list.
    + destruct Ho as [Hnone _]. congruence.
  - intros n Hf. destruct (newest_time _) as [t|].
    + destruct Hn as (n0 & d & Hf0 & Hin & Hmax).
      rewrite Hf in Hf0. injection Hf0 as <-.
      exists t, d. split; [by apply elem_of_map_to_list|].
      intros n' t' d' Hl. eapply Hmax. by apply elem_of_map_to_list.
    + destruct Hn as [Hnone _]. congruence.
Qed.

(** ** health_check.py: run_all_checks *)

Lemma count_status_app (status : string) (a b : list (string * string)) :
  count_status status (a ++ b) = count_status status a + count_status status b.
Proof. induction a as [|r a IH]; simpl; [done|]. rewrite IH. lia. Qed.

Lemma count_status_nonneg (status : string) (rs : list (string * string)) :
  0 ≤ count_status status rs ≤ Z.of_nat (length rs).
Proof.
  induction rs as [|r rs IH]; simpl; [lia|].
  destruct (String.eqb r.2 status); lia.
Qed.

Lemma count_status_pos (status : string) (rs : list (string * string)) :
  0 < count_status status rs ↔ ∃ name, (name, status) ∈ rs.
Proof.
  induction rs as [|[n st] rs IH]; simpl.
  { split; [lia|]. intros [name Hin]. by apply elem_of_nil in Hin. }
  pose proof (count_status_nonneg status rs) as Hnn.
  destruct (String.eqb_spec st status) as [->|Hne].
  - split; [|lia]. intros _. exists n. apply list_elem_of_here.
  - rewrite Z.add_0_l, IH. split; intros [name Hin]; exists name.
    + by apply list_elem_of_further.
    + apply elem_of_cons in Hin as [[= ? ?]|Hin]; [congruence|done].
Qed.

Lemma add_result_agree (check_name status : string) (self : HealthChecker) :
  counters_agree self → counters_agree (add_result check_name status self).
Proof.
  intros (Hp & Hf & Hw). unfold counters_agree, add_result. simpl.
  rewrite !count_status_app. simpl. rewrite <- Hp, <- Hf, <- Hw.
  destruct (String.eqb_spec status "pass") as [->|Hnp]; simpl.
  { split_and!; lia. }
  destruct (String.eqb_spec status "fail") as [->|Hnf]; simpl.
  { split_and!; lia. }
  destruct (String.eqb_spec status "warning") as [->|Hnw]; simpl;
    split_and!; lia.
Qed.

Lemma add_results_spec (added : list (string * string)) (self : HealthChecker) :
  let self' := fold_left (λ s r, add_result r.1 r.2 s) added self in
  results self' = results self ++ added ∧
  (counters_agree self → counters_agree self').
Proof.
  revert self. induction added as [|[n st] added IH]; intros self; simpl.
  { by rewrite app_nil_r. }
  destruct (IH (add_result n st self)) as [Hr Hc]. simpl in Hr. split.
  - rewrite Hr. by rewrite <- app_assoc.
  - intros Hself. by apply Hc, add_result_agree.
Qed.

Lemma run_check_spec (c : check_run) (self : HealthChecker) :
  results (run_check c self) = results self ++ check_results c ∧
  (counters_agree self → counters_agree (run_check c self)).
Proof.
  unfold run_check, check_results.
  destruct (add_results_spec (chk_added c) self) as [Hr Hc].
  destruct (chk_raises c); simpl.
  - rewrite Hr. split; [by rewrite <- app_assoc|].
    intros Hself. by apply add_result_agree, Hc.
  - by rewrite app_nil_r.
Qed.

Lemma run_checks_spec (checks : list check_run) (self : HealthChecker) :
  let self' := fold_left (λ s c, run_check c s) checks self in
  results self' = results self ++ concat (check_results <$> checks) ∧
  (counters_agree self → counters_agree self').
Proof.
  revert self. induction checks as [|c checks IH]; intros self; simpl.
  { by rewrite app_nil_r. }
  destruct (run_check_spec c self) as [Hr1 Hc1].
  destruct (IH (run_check c self)) as [Hr Hc]. simpl in Hr. split.
  - rewrite Hr, Hr1. by rewrite <- app_assoc.
  - intros Hself. by apply Hc, Hc1.
Qed.

Lemma count_status_total (rs : list (string * string)) :
  count_status "pass" rs + count_status "fail" rs + count_status "warning" rs
    ≤ Z.of_nat (length rs) ∧
  (count_status "pass" rs + count_status "fail" rs + count_status "warning" rs
     = Z.of_nat (length rs) ↔
   ∀ r, r ∈ rs → r.2 = "pass" ∨ r.2 = "fail" ∨ r.2 = "warning").
Proof.
  induction rs as [|[n st] rs [IHle IHeq]]; simpl.
  { split; [lia|]. split; [|done]. intros _ r Hr. by apply elem_of_nil in Hr. }
  assert (Hcases :
    (st = "pass" ∨ st = "fail" ∨ st = "warning") ∧
      (if String.eqb st "pass" then 1 else 0)
      + (if String.eqb st "fail" then 1 else 0)
      + (if String.eqb st "warning" then 1 else 0) = 1
    ∨ ¬ (st = "pass" ∨ st = "fail" ∨ st = "warning") ∧
      (if String.eqb st "pass" then 1 else 0)
      + (if String.eqb st "fail" then 1 else 0)
      + (if String.eqb st "warning" then 1 else 0) = 0).
  { destruct (String.eqb_spec st "pass") as [->|Hnp]; [left; by auto|].
    destruct (String.eqb_spec st "fail") as [->|Hnf]; [left; by auto|].
    destruct (String.eqb_spec st "warning") as [->|Hnw]; [left; by auto|].
    right. split; [|done]. by intros [?|[?|?]]. }
  split; [destruct Hcases as [[_ ?]|[_ ?]]; lia|].
  destruct Hcases as [[Hst Hone]|[Hst Hzero]].
  - split.
    + intros Hsum r [->|Hr]%elem_of_cons; [done|]. apply IHeq; [lia|done].
    + intros Hall.
      assert (count_status "pass" rs + count_status "fail" rs
              + count_status "warning" rs = Z.of_nat (length rs)); [|lia].
      apply IHeq. intros r Hr. apply Hall. by apply list_elem_of_further.
  - split; [lia|]. intros Hall. destruct Hst.
    apply (Hall (n, st)). apply list_elem_of_here.
Qed.

(** X17. When [run_all_checks] starts from counters that agree with the
    result list (as they do after [__init__]), each counter of the summary
    is the number of results with that status; the three add up to at most
    the total, and to the total exactly when every result has one of the
    statuses [pass], [fail] and [warning]. *)
Theorem run_all_checks_counts (checks : list check_run)
    (self : HealthChecker) :
  counters_agree self →
  let s := (run_all_checks checks self).2 in
  sum_total s = Z.of_nat (length (sum_results s)) ∧
  sum_passed s = count_status "pass" (sum_results s) ∧
  sum_failed s = count_status "fail" (sum_results s) ∧
  sum_warnings s = count_status "warning" (sum_results s) ∧
  sum_passed s + sum_failed s + sum_warnings s ≤ sum_total s ∧
  (sum_passed s + sum_failed s + sum_warnings s = sum_total s ↔
   ∀ r, r ∈ sum_results s → r.2 = "pass" ∨ r.2 = "fail" ∨ r.2 = "warning").
Proof.
  intros Hself s. subst s. unfold run_all_checks. simpl.
  destruct (run_checks_spec checks self) as [_ Hc].
  destruct (Hc Hself) as (Hp & Hf & Hw). simpl in Hp, Hf, Hw.
  rewrite Hp, Hf, Hw.
  destruct (count_status_total
              (results (fold_left (λ s c, run_check c s) checks self)))
    as [Hle Heq].
  split_and!; done.
Qed.

(** X18. The exit code of [run_all_checks] is 1 exactly when some result
    has status [fail], 2 exactly when none has but some result is a
    [warning], and 0 exactly when there is neither; the overall status is
    [healthy] exactly when the exit code is not 1, so warnings alone leave
    it [healthy]. *)
Theorem run_all_checks_exit_code (checks : list check_run)
    (self : HealthChecker) :
  counters_agree self →
  let code := (run_all_checks checks self).1 in
  let s := (run_all_checks checks self).2 in
  (code = 1 ↔ ∃ name, (name, "fail") ∈ sum_results s) ∧
  (code = 2 ↔ (¬ ∃ name, (name, "fail") ∈ sum_results s) ∧
              ∃ name, (name, "warning") ∈ sum_results s) ∧
  (code = 0 ↔ (¬ ∃ name, (name, "fail") ∈ sum_results s) ∧
              ¬ ∃ name, (name, "warning") ∈ sum_results s) ∧
  (sum_overall_status s = "healthy" ↔ code ≠ 1) ∧
  (sum_overall_status s = "unhealthy" ↔ code = 1).
Proof.
  intros Hself code s. subst code s. unfold run_all_checks. simpl.
  destruct (run_checks_spec checks self) as [_ Hc].
  destruct (Hc Hself) as (_ & Hf & Hw). simpl in Hf, Hw.
  set (self' := fold_left (λ s c, run_check c s) checks self) in *.
  rewrite <- !count_status_pos, <- Hf, <- Hw.
  pose proof (count_status_nonneg "fail" (results self')) as Hfn.
  pose proof (count_status_nonneg "warning" (results self')) as Hwn.
  rewrite <- Hf in Hfn. rewrite <- Hw in Hwn.
  destruct (Z.ltb_spec 0 (checks_failed self')) as [Hfail|Hfail].
  - destruct (Z.eqb_spec (checks_failed self') 0) as [?|_]; [lia|].
    split_and!; split; try done; try lia.
  - destruct (Z.eqb_spec (checks_failed self') 0) as [_|?]; [|lia].
    destruct (Z.ltb_spec 0 (checks_warning self')) as [Hwarn|Hwarn];
      split_and!; split; try done; try lia.
Qed.

(** X19. A check that raises does not stop the run: the results of every
    check of the list, before and after it, are in the summary in the order
    the checks ran, the raising check is recorded as a [fail] under its own
    name, and the run ends with exit code 1 and overall status
    [unhealthy]. *)
Theorem run_all_checks_survives_raise (checks : list check_run)
    (self : HealthChecker) (c : check_run) :
  counters_agree self →
  c ∈ checks → chk_raises c = true →
  let code := (run_all_checks checks self).1 in
  let s := (run_all_checks checks self).2 in
  sum_results s = results self ++ concat (check_results <$> checks) ∧
  (chk_name c, "fail") ∈ sum_results s ∧
  code = 1 ∧ sum_overall_status s = "unhealthy".
Proof.
  intros Hself Hin Hraise code s. subst code s. unfold run_all_checks. simpl.
  destruct (run_checks_spec checks self) as [Hr Hc].
  destruct (Hc Hself) as (_ & Hf & _). simpl in Hr, Hf.
  set (self' := fold_left (λ s c, run_check c s) checks self) in *.
  assert (Hfail : (chk_name c, "fail") ∈ results self').
  { rewrite Hr. apply elem_of_app. right. clear -Hin Hraise.
    induction Hin as [c checks|c c' checks Hin IH]; simpl.
    - apply elem_of_app. left. unfold check_results. rewrite Hraise.
      apply elem_of_app. right. apply list_elem_of_here.
    - apply elem_of_app. right. by apply IH. }
  assert (Hpos : 0 < checks_failed self').
  { rewrite Hf. apply count_status_pos. by exists (chk_name c). }
  split_and!; [done|done| |].
  - destruct (Z.ltb_spec 0 (checks_failed self')); [done|lia].
  - destruct (Z.eqb_spec (checks_failed self') 0); [lia|done].
Qed.

(** ** Further properties of the ingestion cycle *)

Lemma process_call_audio_monitor (e : call_env) (r : CallRecord)
    (self : RdioScannerMonitor) :
  let res := _process_call_audio e r self in
  last_poll_time res.1 = last_poll_time self ∧
  system_monitor res.1 = system_monitor self.
Proof.
  unfold _process_call_audio.
  destruct (download_audio _ _ _ _ _) as [fs1 [audio_path|]]; [|done].
  by destruct (process_audio _ _ _ _) as [fs2 [out|]].
Qed.

Lemma process_calls_monitor (env : nat → call_env)
    (parsed : list (nat * CallRecord)) (self : RdioScannerMonitor) :
  let res := process_calls env parsed self in
  last_poll_time res.1 = last_poll_time self ∧
  system_monitor res.1 = system_monitor self ∧
  length res.2 = length parsed.
Proof.
  revert self. induction parsed as [|[i r] rest IH]; intros self; simpl.
  { done. }
  destruct (truthy (audio_url r)).
  - pose proof (process_call_audio_monitor (env i) r self) as [Hp Hm].
    destruct (_process_call_audio (env i) r self) as [self1 r1].
    simpl in Hp, Hm. specialize (IH self1).
    destruct (process_calls env rest self1) as [self2 rest'].
    simpl in IH |- *. destruct IH as (? & ? & ?).
    split_and!; [congruence|congruence|lia].
  - specialize (IH self).
    destruct (process_calls env rest self) as [self2 rest'].
    simpl in IH |- *. destruct IH as (? & ? & ?).
    split_and!; [congruence|congruence|lia].
Qed.

(** X20. A cycle that fetches or parses nothing leaves the monitor as it
    was, the poll time included.  A cycle whose batch statement raises
    something that [insert_call_records_batch] does not catch ends in the
    handler: one more error is counted, the audio loop has not run, and the
    table, the directory, the poll time and the call count are as before.
    Every other cycle sets [last_poll_time] to the clock and counts exactly
    one more processed call, however many records it handled, and no error.
    In each case the cycle keeps one record per parsed call and leaves the
    audio processor as configured. *)
Theorem poll_cycle_bookkeeping (e : poll_env) (self : RdioScannerMonitor) :
  let parsed := parse_calls (po_call e) 0 (fetch_calls (po_fetch e)) in
  let res := poll_and_process_calls e self in
  audio_processor res.1 = audio_processor self ∧
  length res.2 = length parsed ∧
  (parsed = [] → res.1 = self) ∧
  (parsed ≠ [] →
   db_raises (po_insert e) = true → po_insert_escapes e = true →
   res.2 = parsed.*2 ∧
   calls res.1 = calls self ∧ storage res.1 = storage self ∧
   last_poll_time res.1 = last_poll_time self ∧
   call_count (system_monitor res.1) = call_count (system_monitor self) ∧
   error_count (system_monitor res.1)
   = error_count (system_monitor self) + 1) ∧
  (parsed ≠ [] →
   db_raises (po_insert e) = false ∨ po_insert_escapes e = false →
   last_poll_time res.1 = Some (po_now e) ∧
   call_count (system_monitor res.1) = call_count (system_monitor self) + 1 ∧
   error_count (system_monitor res.1) = error_count (system_monitor self)).
Proof.
  intros parsed res.
  pose proof (poll_and_process_calls_spec e self) as Hspec.
  cbv zeta in Hspec. fold parsed in Hspec. fold res in Hspec.
  destruct Hspec
    as [[Hnil Hres]|[(Hne & Hraise & Hesc & Hres)
                    |(Hne & Hrun_on & self2 & Hrun & _ & Htime & Hmon & Hap
                      & _)]].
  - rewrite Hres. simpl. rewrite Hnil. split_and!; done.
  - rewrite Hres. simpl. rewrite length_fmap.
    split_and!; [done|done|done|done|].
    intros _ [?|?]; congruence.
  - pose proof (process_calls_monitor (po_call e) parsed
                  (with_store self
                     (insert_call_records_batch (po_insert e) (parsed.*2)
                        (calls self)).1 (storage self))) as (_ & Hm & Hlen).
    pose proof (process_calls_spec (po_call e) parsed
                  (with_store self
                     (insert_call_records_batch (po_insert e) (parsed.*2)
                        (calls self)).1 (storage self))) as (Hcfg & _).
    rewrite Hrun in Hm, Hlen, Hcfg. simpl in Hm, Hlen, Hcfg.
    split_and!; [congruence|done|done| |].
    + intros _ Hr He. rewrite Hr, He in Hrun_on. done.
    + intros _ _. rewrite Hmon, Hm. done.
Qed.

(** X21. A cycle keeps the table sound: starting from distinct [call_id]s
    they stay distinct, no row is lost and every [call_id] that had a row
    still has one; when the batch statement is rejected the table holds the
    same [call_id]s as before. *)
Theorem poll_cycle_keeps_table_sound (e : poll_env)
    (self : RdioScannerMonitor) :
  unique_call_ids (calls self) →
  let res := poll_and_process_calls e self in
  unique_call_ids (calls res.1) ∧
  (length (calls self) ≤ length (calls res.1))%nat ∧
  (∀ c, c ∈ c_call_id <$> calls self → c ∈ c_call_id <$> calls res.1) ∧
  (db_raises (po_insert e) = true →
   c_call_id <$> calls res.1 = c_call_id <$> calls self).
Proof.
  intros Hu res. subst res.
  destruct (poll_and_process_calls_spec e self)
    as [[_ ->]|[(_ & _ & _ & ->)|(_ & _ & self2 & Hrun & Hcalls & _)]];
    [done|done|].
  rewrite Hcalls.
  match type of Hrun with process_calls ?env ?p ?s = _ =>
    pose proof (process_calls_spec env p s) as (_ & Hids & _) end.
  rewrite Hrun in Hids. simpl in Hids.
  set (rs := (parse_calls (po_call e) 0 (fetch_calls (po_fetch e))).*2) in *.
  pose proof (run_op_unique (OpBatch (po_insert e) rs) (calls self) Hu) as Hu'.
  pose proof (run_op_grows (OpBatch (po_insert e) rs) (calls self))
    as [Hlen Hkeep].
  simpl in Hu', Hlen, Hkeep.
  unfold unique_call_ids in *. rewrite Hids. split_and!; [done| |done|].
  - apply (f_equal length) in Hids. rewrite !length_fmap in Hids. lia.
  - intros Hraise. unfold insert_call_records_batch. rewrite Hraise.
    by destruct rs.
Qed.

(** *** process_audio and _process_call_audio *)

(** X22. Provided the export leaves a file whenever it returns normally, the
    path that [process_audio] returns names an entry of the directory, and
    either it is the input path or the input has been removed: a successful
    conversion never leaves the original next to the converted file. *)
Theorem process_audio_result_exists (self : AudioProcessor) (e : process_env)
    (file_path : string) (fs fs' : gmap string entry) (out : string) :
  (∀ audio path, ex_raises (pr_export e audio path) = false →
                 is_Some (ex_written (pr_export e audio path))) →
  process_audio self e file_path fs = (fs', Some out) →
  path_exists out fs' = true ∧
  (out = file_path ∨ path_exists file_path fs' = false).
Proof.
  intros Hexport. unfold process_audio.
  destruct (path_exists file_path fs) eqn:Hex; simpl; [|done].
  destruct (load_and_filter self e) as [audio|]; [|done].
  destruct (needs_conversion self file_path).
  - destruct (with_suffix file_path _) as [p|]; [|done].
    unfold export_to.
    destruct (ex_raises (pr_export e audio p)) eqn:Hr; [done|].
    destruct (Hexport audio p Hr) as [data Hw]. rewrite Hw.
    assert (Hp : path_exists p (<[p := File (pr_mtime e) data]> fs) = true).
    { apply path_exists_true. rewrite lookup_insert_eq. eauto. }
    rewrite Hp, andb_true_r.
    destruct (String.eqb_spec p file_path) as [->|Hne]; simpl.
    + intros [= <- <-]. split; [done|by left].
    + destruct (pr_unlink_raises e); [done|].
      intros [= <- <-]. split.
      * apply path_exists_true. unfold unlink.
        rewrite lookup_delete_ne by done. rewrite lookup_insert_eq. eauto.
      * right. unfold path_exists, unlink. apply bool_decide_eq_false.
        rewrite lookup_delete_eq. by intros [? ?].
  - pose proof (export_to_lookup e audio file_path file_path fs) as Hkeep.
    unfold export_to in *. simpl in Hkeep |- *.
    destruct (ex_raises (pr_export e audio file_path)); [done|].
    intros [= <- <-]. split; [|by left].
    apply path_exists_true, Hkeep. by apply path_exists_true.
Qed.

(** X23. [_process_call_audio] changes rows of the record's own [call_id]
    only, and none at all unless it also marks the record in memory as
    processed.  The result of [mark_call_processed] is ignored: when the
    statement raises, the record says [processed] while the table is as it
    was; when it goes through, the stored flag of the [call_id] is set if
    the call has a row. *)
Theorem process_call_audio_row (e : call_env) (r : CallRecord)
    (self : RdioScannerMonitor) :
  processed r = false →
  let res := _process_call_audio e r self in
  (processed res.2 = false → res.2 = r ∧ calls res.1 = calls self) ∧
  (processed res.2 = true →
   (db_raises (ce_mark e) = true → calls res.1 = calls self) ∧
   (db_raises (ce_mark e) = false →
    rows_of (call_id r) (calls self) ≠ [] →
    stored_processed (call_id r) (calls res.1) = Some true)) ∧
  (∀ c, c ≠ call_id r → rows_of c (calls res.1) = rows_of c (calls self)).
Proof.
  intros Hfresh. unfold _process_call_audio.
  destruct (download_audio _ _ _ _ _) as [fs1 [audio_path|]]; simpl.
  2:{ split_and!; [done|congruence|done]. }
  destruct (process_audio _ _ _ _) as [fs2 [out|]]; simpl.
  2:{ split_and!; [done|congruence|done]. }
  split_and!; [done| |].
  - intros _. split.
    + intros Hraise. unfold mark_call_processed. by rewrite Hraise.
    + intros Hok Hrows. unfold stored_processed.
      rewrite rows_of_mark, Hok, pyval_eqb_refl.
      by destruct (rows_of (call_id r) (calls self)).
  - intros c Hc. rewrite rows_of_mark.
    destruct (db_raises (ce_mark e)); [done|].
    assert (Hne : pyval_eqb (call_id r) c = false)
      by (apply pyval_eqb_neq; congruence).
    by rewrite Hne.
Qed.

Lemma batch_fold_paths (now : datetime) (rs : list CallRecord)
    (t : list Row) (row : Row) :
  Forall (λ r, audio_file_path r = None) rs →
  row ∈ fold_left (λ t' r, upsert_row now r t') rs t →
  c_audio_file_path row = None ∨
  (row ∈ t ∧ c_call_id row ∉ call_id <$> rs).
Proof.
  intros Hrs. revert t.
  induction Hrs as [|r rs Hr Hrs IH]; intros t Hin; simpl in Hin.
  { right. split; [done|apply not_elem_of_nil]. }
  destruct (IH _ Hin) as [?|[Hin' Hnot]]; [by left|].
  unfold upsert_row in Hin'.
  destruct (existsb (has_call_id (call_id r)) t) eqn:Hex.
  - apply list_elem_of_In, in_map_iff in Hin' as (row0 & Heq & Hin0).
    apply list_elem_of_In in Hin0.
    destruct (has_call_id (call_id r) row0) eqn:Hrow.
    + left. subst row. done.
    + right. subst row. split; [done|].
      rewrite fmap_cons. apply not_elem_of_cons. split; [|done].
      intros Hc. apply has_call_id_true in Hc. congruence.
  - apply elem_of_app in Hin' as [Hin'|Hin'%list_elem_of_singleton].
    + right. split; [done|].
      rewrite fmap_cons. apply not_elem_of_cons. split; [|done].
      intros Hc.
      assert (Hhas : existsb (has_call_id (call_id r)) t = true).
      { apply existsb_has_call_id. rewrite <- Hc.
        by apply list_elem_of_fmap_2. }
      congruence.
    + left. subst row. done.
Qed.

Lemma mark_call_processed_paths (e : db_env) (cid : pyval) (t : list Row) :
  (λ row, (c_call_id row, c_audio_file_path row))
    <$> (mark_call_processed e cid t).1
  = (λ row, (c_call_id row, c_audio_file_path row)) <$> t.
Proof.
  unfold mark_call_processed. destruct (db_raises e); [done|]. simpl.
  rewrite <- list_fmap_compose. apply list_fmap_ext.
  intros i row _. simpl. by destruct (has_call_id cid row).
Qed.

Lemma process_calls_paths (env : nat → call_env)
    (parsed : list (nat * CallRecord)) (self : RdioScannerMonitor) :
  (λ row, (c_call_id row, c_audio_file_path row))
    <$> calls (process_calls env parsed self).1
  = (λ row, (c_call_id row, c_audio_file_path row)) <$> calls self.
Proof.
  revert self. induction parsed as [|[i r] rest IH]; intros self; simpl.
  { done. }
  assert (Hone : (λ row, (c_call_id row, c_audio_file_path row))
                   <$> calls (_process_call_audio (env i) r self).1
                 = (λ row, (c_call_id row, c_audio_file_path row))
                   <$> calls self).
  { unfold _process_call_audio.
    destruct (download_audio _ _ _ _ _) as [fs1 [audio_path|]]; [|done].
    destruct (process_audio _ _ _ _) as [fs2 [out|]]; [|done].
    simpl. apply mark_call_processed_paths. }
  destruct (truthy (audio_url r)).
  - destruct (_process_call_audio (env i) r self) as [self1 r1].
    simpl in Hone. specialize (IH self1).
    destruct (process_calls env rest self1) as [self2 rest'].
    simpl in IH |- *. congruence.
  - specialize (IH self).
    by destruct (process_calls env rest self) as [self2 rest'].
Qed.

(** X24. The path of the processed audio reaches the record in memory but
    never the table: after a cycle whose batch the database accepted, every
    record of the cycle has a row, and the [audio_file_path] column of that
    row is empty, also for the records whose audio was downloaded and
    converted and whose stored flag was set. *)
Theorem poll_cycle_stores_no_audio_path (e : poll_env)
    (self : RdioScannerMonitor) (r : CallRecord) :
  db_raises (po_insert e) = false →
  let res := poll_and_process_calls e self in
  r ∈ res.2 →
  rows_of (call_id r) (calls res.1) ≠ [] ∧
  ∀ row, row ∈ rows_of (call_id r) (calls res.1) →
         c_audio_file_path row = None.
Proof.
  intros Hok res Hr. subst res.
  destruct (poll_and_process_calls_spec e self)
    as [[_ Hres]|[(_ & Hraise & _)|(_ & _ & self2 & Hrun & Hcalls & _)]].
  { rewrite Hres in Hr. simpl in Hr. by apply elem_of_nil in Hr. }
  { congruence. }
  rewrite Hcalls.
  set (parsed := parse_calls (po_call e) 0 (fetch_calls (po_fetch e))) in *.
  match type of Hrun with process_calls ?env ?p ?s = _ =>
    pose proof (process_calls_spec env p s) as (_ & Hids & _ & Hall);
    pose proof (process_calls_paths env p s) as Hpaths end.
  rewrite Hrun in Hids, Hall, Hpaths. simpl in Hids, Hall, Hpaths.
  rewrite batch_insert_ok in Hids, Hpaths by done.
  apply list_elem_of_lookup_1 in Hr as [j Hj].
  destruct (Forall2_lookup_r _ _ _ _ _ Hall Hj) as (ir & Hir & Hid & _).
  assert (Hin : call_id r ∈ call_id <$> parsed.*2).
  { rewrite Hid. apply list_elem_of_fmap_2, list_elem_of_fmap_2.
    by eapply list_elem_of_lookup_2. }
  split.
  - rewrite rows_of_nil_iff, Hids. intros Hnot. apply Hnot.
    apply batch_fold_has_ids. by right.
  - intros row Hrow. unfold rows_of in Hrow.
    apply list_elem_of_filter in Hrow as [Hc Hrow].
    apply has_call_id_true in Hc.
    apply (list_elem_of_fmap_2
             (λ row, (c_call_id row, c_audio_file_path row))) in Hrow.
    rewrite Hpaths in Hrow.
    apply list_elem_of_fmap in Hrow as (row0 & [= Hid0 Hpath0] & Hrow0).
    rewrite Hpath0.
    destruct (batch_fold_paths (db_now (po_insert e)) (parsed.*2)
                (calls self) row0) as [?|[_ Hnot]]; [|done|done|].
    + apply Forall_fmap. apply parse_calls_audio_path.
    + destruct Hnot. congruence.
Qed.

End Properties.

(** * Examples *)

#[local] Existing Instance example_runtime.

Example parse_A1 :
  parse_call_record Ex.penv Ex.raw_A1 =
  Some (mkCallRecord (PStr "A1") (1700000000000000 : Z) 0 (Some "55") None 0
          (PStr "http://x/a.wav") None PNone PNone PNone [] Ex.raw_A1 false
          (1700000100000000 : Z)).
Proof. reflexivity. Qed.

Example parse_bad : parse_call_record Ex.penv Ex.raw_bad = None.
Proof. reflexivity. Qed.

Example parse_not_a_dict :
  parse_call_record Ex.penv (PStr "oops") = None.
Proof. reflexivity. Qed.

(** ** The [calls] table *)



Lemma upsert_idempotent_witness :
  let r1 := Ex.rec_of Ex.raw_A1 false in
  let r2 := Ex.rec_A1_later in
  let t1 := upsert_one false (Ex.db_ok 1) r1 [] in
  let t2 := upsert_one true (Ex.db_ok 2) r2 t1 in
  unique_call_ids ([] : list Row) ∧ call_id r2 = call_id r1 ∧
  ∃ row1 row2,
    rows_of (call_id r1) t1 = [row1] ∧
    rows_of (call_id r1) t2 = [row2] ∧
    row_reflects row2 r2 ∧
    c_created_at row2 = c_created_at row1 ∧
    length t2 = length t1.
Proof.
  intros r1 r2 t1 t2. split_and!.
  - constructor.
  - reflexivity.
  - apply (upsert_idempotent false true (Ex.db_ok 1) (Ex.db_ok 2) r1 r2 []).
    + constructor.
    + reflexivity.
    + reflexivity.
    + reflexivity.
Defined.

(** ** download_audio *)

(** C4 fails as stated: with the maximum configured as 0 the header check
    has nothing to compare and the loop does not police the running total;
    one byte, more than the maximum, is written and the file is returned. *)
Lemma download_over_zero_limit_is_kept :
  let self := Ex.processor_no_limit in
  let body := [Chunk [Ex.b]] in
  let e := Ex.dl (HttpResponse None body) in
  let res := download_audio self e (PStr "http://x/a.wav") (PStr "A1") ∅ in
  max_file_size self < chunk_bytes body ∧
  res.2 = Some "A1_20231114_221500.mp3" ∧
  res.1 !! "A1_20231114_221500.mp3"
  = Some (File 1700000100000000 [Ex.b]).
Proof. split_and!; reflexivity. Qed.

Lemma download_size_guard_witness :
  let self := Ex.processor in
  let e := Ex.dl (HttpResponse (Some "2097152") [Chunk [Ex.b]]) in
  advertised_over self (Some "2097152") ∧
  ∃ fs',
    download_audio self e (PStr "http://x/a.wav") (PStr "A1") ∅ = (fs', None) ∧
    (fs' = ∅ ∨ fs' !! download_filename self (PStr "A1") (dl_stamp e) = None).
Proof.
  intros self e.
  assert (Hover : advertised_over self (Some "2097152")).
  { exists "2097152", 2097152. split_and!; [reflexivity|done|reflexivity|].
    vm_compute. reflexivity. }
  split; [exact Hover|].
  apply (download_size_guard self e (PStr "http://x/a.wav") (PStr "A1") ∅
           (Some "2097152") [Chunk [Ex.b]]).
  - reflexivity.
  - left. exact Hover.
Defined.

Lemma download_network_error_leaves_partial_file_witness :
  let self := Ex.processor in
  let pre := [Chunk [Ex.b; Ex.b]; Chunk [Ex.b]] in
  let e := Ex.dl (HttpResponse None (pre ++ [Raise true])) in
  ∃ fs' mtime,
    download_audio self e (PStr "http://x/a.wav") (PStr "A1") ∅ = (fs', None) ∧
    fs' !! download_filename self (PStr "A1") (dl_stamp e)
    = Some (File mtime [Ex.b; Ex.b; Ex.b]).
Proof.
  intros self pre e.
  apply (download_network_error_leaves_partial_file self e
           (PStr "http://x/a.wav") (PStr "A1") ∅ None pre []).
  - reflexivity.
  - reflexivity.
  - reflexivity.
  - reflexivity.
  - repeat constructor.
  - vm_compute. intros [_ H]. discriminate H.
Defined.

(** ** process_audio *)

(** The re-export at work: a file that [download_audio] has named is
    exported over itself; the export raises after it has opened its output,
    the call returns [None] and the original audio is gone.  The same
    failure on a file of another format leaves the input as it was. *)
Lemma process_audio_reexport_overwrites_original_witness :
  let mp3 := "A1_20231114_221500.mp3" in
  let wav := "A1_20231114_221500.wav" in
  let fs : gmap string entry := {[mp3 := File 5 [Ex.b; Ex.b; Ex.b]]} in
  let fs_wav : gmap string entry := {[wav := File 5 [Ex.b; Ex.b; Ex.b]]} in
  let run_wav := process_audio Ex.processor Ex.pr_export_fails wav fs_wav in
  is_Some (fs !! mp3) ∧
  download_filename Ex.processor (PStr "A1") "20231114_221500" = mp3 ∧
  process_audio Ex.processor Ex.pr_export_fails mp3 fs
  = (<[mp3 := File 1700000101000000 []]> fs, None) ∧
  is_Some (fs_wav !! wav) ∧
  run_wav.2 = None ∧ run_wav.1 !! wav = fs_wav !! wav.
Proof.
  intros mp3 wav fs fs_wav run_wav.
  assert (Hin : is_Some (fs !! mp3)).
  { exists (File 5 [Ex.b; Ex.b; Ex.b]). reflexivity. }
  assert (Hin_wav : is_Some (fs_wav !! wav)).
  { exists (File 5 [Ex.b; Ex.b; Ex.b]). reflexivity. }
  destruct (process_audio_reexport_overwrites_original Ex.processor
              Ex.pr_export_fails mp3 fs Hin) as [_ Hsame].
  destruct (process_audio_reexport_overwrites_original Ex.processor
              Ex.pr_export_fails wav fs_wav Hin_wav) as [Hconv _].
  split_and!; [exact Hin|reflexivity| |exact Hin_wav|reflexivity|].
  - apply (Hsame eq_refl Ex.segment []); reflexivity.
  - apply (Hconv eq_refl).
    + intros H. vm_compute in H. discriminate H.
    + reflexivity.
Defined.

(** When the formats agree the export goes over the input itself: a failed
    export leaves the file in place, with what the codec wrote so far. *)
Example process_audio_failed_reexport :
  let fs : gmap string entry := {["A1_20231114_221500.mp3" := File 5 [Ex.b]]} in
  let run := process_audio Ex.processor Ex.pr_export_fails
               "A1_20231114_221500.mp3" fs in
  run.2 = None ∧
  run.1 !! "A1_20231114_221500.mp3" = Some (File 1700000101000000 []).
Proof. split; reflexivity. Qed.

(** A conversion that succeeds replaces the input by the converted file. *)
Example process_audio_converts :
  let fs : gmap string entry := {["A1_20231114_221500.wav" := File 5 [Ex.b]]} in
  let run := process_audio Ex.processor Ex.pr_ok "A1_20231114_221500.wav" fs in
  run.2 = Some "A1_20231114_221500.mp3" ∧
  run.1 !! "A1_20231114_221500.wav" = None ∧
  is_Some (run.1 !! "A1_20231114_221500.mp3").
Proof. split_and!; [reflexivity|reflexivity|]. eexists. reflexivity. Qed.

(** With normalization switched on, any segment that is not silent makes
    [_normalize_audio] raise, and the call returns [None]. *)
Example process_audio_normalize_raises :
  let self := new_AudioProcessor "mp3" 1 false true 7 in
  let e := {| pr_load := Some {| seg_max := 1200; seg_data := [Ex.b] |};
              pr_compress := pr_compress Ex.pr_ok;
              pr_export := pr_export Ex.pr_ok;
              pr_unlink_raises := false;
              pr_mtime := 1 |} in
  let fs : gmap string entry := {["A1_20231114_221500.mp3" := File 5 [Ex.b]]} in
  process_audio self e "A1_20231114_221500.mp3" fs = (fs, None).
Proof. reflexivity. Qed.

(** ** cleanup_old_files *)

Lemma cleanup_old_files_retention_witness :
  let cutoff := cl_now Ex.clean_env - days (retention_days Ex.processor) in
  0 < retention_days Ex.processor ∧ datetime_min ≤ cutoff ∧
  no_cleanup_errors Ex.clean_env ∧
  ∃ res,
    cleanup_old_files Ex.processor Ex.clean_env Ex.old_fs = Some res ∧
    res.2 = Z.of_nat (size Ex.old_fs) - Z.of_nat (size res.1) ∧
    (∀ name mtime data, res.1 !! name = Some (File mtime data) →
                        cutoff ≤ mtime).
Proof.
  intros cutoff.
  assert (Hon : 0 < retention_days Ex.processor) by reflexivity.
  assert (Hin : datetime_min ≤ cutoff) by (vm_compute; discriminate).
  assert (Hok : no_cleanup_errors Ex.clean_env)
    by (intros name; split; reflexivity).
  destruct (cleanup_old_files_retention Ex.processor Ex.clean_env Ex.old_fs)
    as (_ & _ & Hrun).
  destruct (Hrun Hon Hin) as (res & Hres & _ & Hcount & Hsurvivors).
  split_and!; [exact Hon|exact Hin|exact Hok|].
  exists res. split_and!; [exact Hres|exact Hcount|exact (Hsurvivors Hok)].
Defined.

(** The ten-day-old file goes, the file of an hour ago and the
    sub-directory stay. *)
Example cleanup_example :
  cleanup_old_files Ex.processor Ex.clean_env Ex.old_fs
  = Some (delete "A0_20231104_221500.mp3" Ex.old_fs, 1).
Proof. vm_compute. reflexivity. Qed.

Example cleanup_disabled :
  cleanup_old_files (new_AudioProcessor "mp3" 1 false false 0) Ex.clean_env
    Ex.old_fs = Some (Ex.old_fs, 0).
Proof. reflexivity. Qed.

(** ** The ingestion cycle *)


(** The happy path: call A1 with audio ends the cycle processed, in the
    record and in its row, and its audio file is in the directory. *)
Example cycle_with_audio :
  let res := poll_and_process_calls (Ex.poll [Ex.raw_A1]) Ex.monitor0 in
  processed <$> res.2 = [true] ∧
  audio_file_path <$> res.2 = [Some "A1_20231114_221500.mp3"] ∧
  stored_processed (PStr "A1") (calls res.1) = Some true ∧
  storage res.1 !! "A1_20231114_221500.mp3"
  = Some (File 1700000101000000 [Ex.b; Ex.b]).
Proof. split_and!; reflexivity. Qed.





(** ** Instances of the further properties *)


Lemma run_ops_keeps_table_sound_witness :
  let t := run_ops [OpInsert (Ex.db_ok 1) (Ex.rec_of Ex.raw_A1 false)] [] in
  let ops := [OpBatch (Ex.db_ok 3) [Ex.rec_of Ex.raw_B2 false];
              OpMark (Ex.db_ok 4) (PStr "B2");
              OpInsert (Ex.db_ok 5) Ex.rec_A1_later] in
  unique_call_ids t ∧
  unique_call_ids (run_ops ops t) ∧
  (length t ≤ length (run_ops ops t))%nat ∧
  ∀ c, c ∈ c_call_id <$> t → c ∈ c_call_id <$> run_ops ops t.
Proof.
  intros t ops.
  assert (Hu : unique_call_ids t) by apply (NoDup_singleton (PStr "A1")).
  split; [exact Hu|]. apply (run_ops_keeps_table_sound ops t Hu).
Defined.

Lemma parse_call_record_call_id_witness :
  let d := [("id", PStr "A1"); ("timestamp", PInt 1700000000);
            ("talkgroup", PStr "55"); ("audio_url", PStr "http://x/a.wav")] in
  let r := Ex.rec_of Ex.raw_A1 false in
  parse_call_record Ex.penv (PDict d) = Some r ∧
  call_id r =
    (if truthy (dict_get d "id" PNone) then dict_get d "id" PNone
     else if truthy (dict_get d "call_id" PNone)
          then dict_get d "call_id" PNone
          else PStr (pe_uuid Ex.penv)) ∧
  (pe_uuid Ex.penv ≠ "" → truthy (call_id r) = true).
Proof.
  intros d r. split; [reflexivity|].
  apply (parse_call_record_call_id Ex.penv d r). reflexivity.
Defined.

Lemma parse_call_record_initial_state_witness :
  let r := Ex.rec_of Ex.raw_B2 false in
  parse_call_record Ex.penv Ex.raw_B2 = Some r ∧
  metadata r = Ex.raw_B2 ∧ processed r = false ∧ audio_file_path r = None ∧
  created_at r = pe_created Ex.penv ∧
  ∃ d, Ex.raw_B2 = PDict d ∧
       units r = match dict_get d "units" (PList []) with
                 | PStr s => [PStr s]
                 | PList l => l
                 | _ => []
                 end.
Proof.
  intros r. split; [reflexivity|].
  apply (parse_call_record_initial_state Ex.penv Ex.raw_B2 r). reflexivity.
Defined.

Lemma download_audio_stores_body_witness :
  let body := [Chunk [Ex.b; Ex.b]; Chunk []; Chunk [Ex.b]] in
  let e := Ex.dl (HttpResponse (Some "3") body) in
  declared_too_large Ex.processor (Some "3") = Some false ∧
  Forall is_chunk body ∧
  ∃ fs',
    download_audio Ex.processor e (PStr "http://x/a.wav") (PStr "A1") ∅
    = (fs', Some (download_filename Ex.processor (PStr "A1") (dl_stamp e))) ∧
    fs' !! download_filename Ex.processor (PStr "A1") (dl_stamp e)
    = Some (File (dl_mtime e) (chunk_data body)).
Proof.
  intros body e.
  assert (Hbody : Forall is_chunk body).
  { repeat constructor; eexists; reflexivity. }
  split_and!; [reflexivity|exact Hbody|].
  apply (download_audio_stores_body Ex.processor e (PStr "http://x/a.wav")
           (PStr "A1") ∅ (Some "3") body).
  - reflexivity.
  - reflexivity.
  - reflexivity.
  - reflexivity.
  - exact Hbody.
  - intros [_ H]. vm_compute in H. discriminate H.
Defined.

Lemma download_audio_touches_one_name_witness :
  let fs : gmap string entry := {["B2_20231114_221400.mp3" := File 5 [Ex.b]]} in
  let e := Ex.dl (HttpResponse None [Chunk [Ex.b]; Raise true]) in
  "B2_20231114_221400.mp3" ≠ download_filename Ex.processor (PStr "A1")
                               (dl_stamp e) ∧
  (download_audio Ex.processor e (PStr "http://x/a.wav") (PStr "A1") fs).1
    !! "B2_20231114_221400.mp3"
  = fs !! "B2_20231114_221400.mp3".
Proof.
  intros fs e.
  assert (Hne : "B2_20231114_221400.mp3"
                ≠ download_filename Ex.processor (PStr "A1") (dl_stamp e)).
  { intros H. vm_compute in H. discriminate H. }
  split; [exact Hne|].
  apply (download_audio_touches_one_name Ex.processor e
           (PStr "http://x/a.wav") (PStr "A1") fs "B2_20231114_221400.mp3" Hne).
Defined.

Lemma process_audio_touches_two_names_witness :
  let fs : gmap string entry :=
    <["A1_20231114_221500.wav" := File 5 [Ex.b]]>
      {["B2_20231114_221400.mp3" := File 4 [Ex.b]]} in
  export_path Ex.processor "A1_20231114_221500.wav"
    ≠ Some "B2_20231114_221400.mp3" ∧
  (process_audio Ex.processor Ex.pr_ok "A1_20231114_221500.wav" fs).1
    !! "B2_20231114_221400.mp3"
  = fs !! "B2_20231114_221400.mp3".
Proof.
  intros fs.
  assert (Hout : export_path Ex.processor "A1_20231114_221500.wav"
                 ≠ Some "B2_20231114_221400.mp3").
  { intros H. vm_compute in H. discriminate H. }
  split; [exact Hout|].
  apply (process_audio_touches_two_names Ex.processor Ex.pr_ok
           "A1_20231114_221500.wav" fs "B2_20231114_221400.mp3").
  - intros H. discriminate H.
  - exact Hout.
Defined.

Lemma process_audio_normalize_rejects_sound_witness :
  let self := new_AudioProcessor "mp3" 1 false true 7 in
  let audio := {| seg_max := 1200; seg_data := [Ex.b] |} in
  let e := {| pr_load := Some audio;
              pr_compress := pr_compress Ex.pr_ok;
              pr_export := pr_export Ex.pr_ok;
              pr_unlink_raises := false;
              pr_mtime := 1 |} in
  let fs : gmap string entry := {["A1_20231114_221500.mp3" := File 5 [Ex.b]]} in
  normalize_audio self = true ∧ seg_max audio ≠ 0 ∧
  process_audio self e "A1_20231114_221500.mp3" fs = (fs, None).
Proof.
  intros self audio e fs.
  assert (Hloud : seg_max audio ≠ 0) by (intros H; discriminate H).
  split_and!; [reflexivity|exact Hloud|].
  apply (process_audio_normalize_rejects_sound self e
           "A1_20231114_221500.mp3" fs audio).
  - reflexivity.
  - reflexivity.
  - exact Hloud.
Defined.

Lemma cleanup_old_files_settles_witness :
  let res := (delete "A0_20231104_221500.mp3" Ex.old_fs, 1) in
  no_cleanup_errors Ex.clean_env ∧
  cleanup_old_files Ex.processor Ex.clean_env Ex.old_fs = Some res ∧
  cleanup_old_files Ex.processor Ex.clean_env res.1 = Some (res.1, 0).
Proof.
  intros res.
  assert (Hok : no_cleanup_errors Ex.clean_env)
    by (intros name; split; reflexivity).
  assert (Hrun : cleanup_old_files Ex.processor Ex.clean_env Ex.old_fs
                 = Some res) by (vm_compute; reflexivity).
  split_and!; [exact Hok|exact Hrun|].
  apply (cleanup_old_files_settles Ex.processor Ex.clean_env Ex.old_fs res
           Hok Hrun).
Defined.

Lemma get_storage_stats_extremes_witness :
  let s := get_storage_stats Ex.stat_ok Ex.old_fs in
  no_stat_errors Ex.stat_ok ∧
  (∀ n, oldest_file s = Some n →
        ∃ t d, Ex.old_fs !! n = Some (File t d) ∧
               ∀ n' t' d', Ex.old_fs !! n' = Some (File t' d') → t ≤ t') ∧
  (∀ n, newest_file s = Some n →
        ∃ t d, Ex.old_fs !! n = Some (File t d) ∧
               ∀ n' t' d', Ex.old_fs !! n' = Some (File t' d') → t' ≤ t).
Proof.
  intros s.
  assert (Hok : no_stat_errors Ex.stat_ok)
    by (intros name; split; reflexivity).
  split; [exact Hok|].
  apply (get_storage_stats_extremes Ex.stat_ok Ex.old_fs Hok).
Defined.

Lemma run_all_checks_counts_witness :
  let s := (run_all_checks Ex.checks new_HealthChecker).2 in
  counters_agree new_HealthChecker ∧
  sum_total s = Z.of_nat (length (sum_results s)) ∧
  sum_passed s = count_status "pass" (sum_results s) ∧
  sum_failed s = count_status "fail" (sum_results s) ∧
  sum_warnings s = count_status "warning" (sum_results s) ∧
  sum_passed s + sum_failed s + sum_warnings s ≤ sum_total s ∧
  (sum_passed s + sum_failed s + sum_warnings s = sum_total s ↔
   ∀ r, r ∈ sum_results s → r.2 = "pass" ∨ r.2 = "fail" ∨ r.2 = "warning").
Proof.
  intros s.
  assert (Hinit : counters_agree new_HealthChecker)
    by (split_and!; reflexivity).
  split; [exact Hinit|].
  apply (run_all_checks_counts Ex.checks new_HealthChecker Hinit).
Defined.

Lemma run_all_checks_exit_code_witness :
  let code := (run_all_checks Ex.checks new_HealthChecker).1 in
  let s := (run_all_checks Ex.checks new_HealthChecker).2 in
  counters_agree new_HealthChecker ∧
  (code = 1 ↔ ∃ name, (name, "fail") ∈ sum_results s) ∧
  (code = 2 ↔ (¬ ∃ name, (name, "fail") ∈ sum_results s) ∧
              ∃ name, (name, "warning") ∈ sum_results s) ∧
  (code = 0 ↔ (¬ ∃ name, (name, "fail") ∈ sum_results s) ∧
              ¬ ∃ name, (name, "warning") ∈ sum_results s) ∧
  (sum_overall_status s = "healthy" ↔ code ≠ 1) ∧
  (sum_overall_status s = "unhealthy" ↔ code = 1).
Proof.
  intros code s.
  assert (Hinit : counters_agree new_HealthChecker)
    by (split_and!; reflexivity).
  split; [exact Hinit|].
  apply (run_all_checks_exit_code Ex.checks new_HealthChecker Hinit).
Defined.

Lemma run_all_checks_survives_raise_witness :
  let code := (run_all_checks Ex.checks new_HealthChecker).1 in
  let s := (run_all_checks Ex.checks new_HealthChecker).2 in
  Ex.api_check ∈ Ex.checks ∧ chk_raises Ex.api_check = true ∧
  sum_results s
  = [("database_connectivity", "pass");
     ("check_api_responsiveness", "fail");
     ("filesystem_health", "warning")] ∧
  code = 1 ∧ sum_overall_status s = "unhealthy".
Proof.
  intros code s.
  assert (Hinit : counters_agree new_HealthChecker)
    by (split_and!; reflexivity).
  assert (Hin : Ex.api_check ∈ Ex.checks)
    by apply list_elem_of_further, list_elem_of_here.
  destruct (run_all_checks_survives_raise Ex.checks new_HealthChecker
              Ex.api_check Hinit Hin eq_refl) as (Hres & _ & Hcode & Hst).
  split_and!; [exact Hin|reflexivity|exact Hres|exact Hcode|exact Hst].
Defined.

Lemma poll_cycle_keeps_table_sound_witness :
  let e := Ex.poll [Ex.raw_A1; Ex.raw_bad; Ex.raw_B2] in
  let res := poll_and_process_calls e Ex.monitor0 in
  unique_call_ids (calls Ex.monitor0) ∧
  unique_call_ids (calls res.1) ∧
  (length (calls Ex.monitor0) ≤ length (calls res.1))%nat ∧
  (∀ c, c ∈ c_call_id <$> calls Ex.monitor0 → c ∈ c_call_id <$> calls res.1) ∧
  (db_raises (po_insert e) = true →
   c_call_id <$> calls res.1 = c_call_id <$> calls Ex.monitor0).
Proof.
  intros e res.
  assert (Hu : unique_call_ids (calls Ex.monitor0)) by apply NoDup_nil_2.
  split; [exact Hu|].
  apply (poll_cycle_keeps_table_sound e Ex.monitor0 Hu).
Defined.

Lemma process_audio_result_exists_witness :
  let fs : gmap string entry := {["A1_20231114_221500.wav" := File 5 [Ex.b]]} in
  let run := process_audio Ex.processor Ex.pr_ok "A1_20231114_221500.wav" fs in
  run.2 = Some "A1_20231114_221500.mp3" ∧
  path_exists "A1_20231114_221500.mp3" run.1 = true ∧
  ("A1_20231114_221500.mp3" = "A1_20231114_221500.wav" ∨
   path_exists "A1_20231114_221500.wav" run.1 = false).
Proof.
  intros fs run. split; [reflexivity|].
  apply (process_audio_result_exists Ex.processor Ex.pr_ok
           "A1_20231114_221500.wav" fs run.1 "A1_20231114_221500.mp3").
  - intros audio path _. eexists. reflexivity.
  - reflexivity.
Defined.

Lemma process_call_audio_row_witness :
  let r := Ex.rec_of Ex.raw_A1 false in
  let self := with_store Ex.monitor0 (run_ops [OpInsert (Ex.db_ok 1) r] []) ∅ in
  let res := _process_call_audio Ex.cenv r self in
  processed r = false ∧ processed res.2 = true ∧
  stored_processed (call_id r) (calls self) = Some false ∧
  stored_processed (call_id r) (calls res.1) = Some true.
Proof.
  intros r self res.
  destruct (process_call_audio_row Ex.cenv r self eq_refl)
    as (_ & Hrow & _).
  destruct (Hrow eq_refl) as [_ Hset].
  split_and!; [reflexivity|reflexivity|reflexivity|].
  apply Hset; [reflexivity|]. intros H. discriminate H.
Defined.

Lemma poll_cycle_stores_no_audio_path_witness :
  let e := Ex.poll [Ex.raw_A1] in
  let res := poll_and_process_calls e Ex.monitor0 in
  let r := set_audio_processed "A1_20231114_221500.mp3"
             (Ex.rec_of Ex.raw_A1 false) in
  db_raises (po_insert e) = false ∧ r ∈ res.2 ∧
  audio_file_path r = Some "A1_20231114_221500.mp3" ∧
  rows_of (call_id r) (calls res.1) ≠ [] ∧
  ∀ row, row ∈ rows_of (call_id r) (calls res.1) →
         c_audio_file_path row = None.
Proof.
  intros e res r.
  assert (Hin : r ∈ res.2) by apply list_elem_of_here.
  split_and!; [reflexivity|exact Hin|reflexivity| |];
    apply (poll_cycle_stores_no_audio_path e Ex.monitor0 r eq_refl Hin).
Defined.
